(** * HR-Agent: the candidate scoring and ranking engine ([src/ranking.py])

    A shallow embedding of the five scoring functions and of
    [rank_candidates], followed by the properties of the engine.

    Modelling conventions.
    - Python [str] values are Rocq strings, read as UTF-8 byte sequences.
      Case mapping, white space and digits are those of ASCII; the only
      non-ASCII character the source names, the en dash of the date-range
      pattern, is its three-byte encoding.  Bytes above 127 are otherwise
      opaque: they are neither letters, digits nor spaces.
    - Python [float] and [int] results are exact rationals ([Q]) and
      integers ([Z]); equality of scores is [Qeq].
    - A Python [set] of strings is a [gset string]; loops over a set run
      over [elements].
    - A [dict] with string keys is a [gmap]; [d[k]] on a missing key
      raises [KeyError], modelled by [None] in the option monad.
    - [datetime.now().year] is the parameter [current_year]. *)

From Stdlib Require Import ZArith QArith Qround Qabs Lqa Lia.
From Stdlib Require Import Ascii String.
From Stdlib Require Import Permutation Sorted.
From stdpp Require Import gmap strings list fin_maps fin_sets.

(** ** Python built-ins used by the source *)

Module Py.

Definition code (c : ascii) : N := N_of_ascii c.

Definition is_upper (c : ascii) : bool :=
  ((65 <=? code c) && (code c <=? 90))%N.

Definition is_digit (c : ascii) : bool :=
  ((48 <=? code c) && (code c <=? 57))%N.

(** [str.isspace] on one character, which is also the class [\s]:
    tab, line feed, vertical tab, form feed, carriage return, the four
    separators 28..31 and the space. *)
Definition is_space (c : ascii) : bool :=
  (((9 <=? code c) && (code c <=? 13)) || ((28 <=? code c) && (code c <=? 32)))%N.

Definition lower_char (c : ascii) : ascii :=
  if is_upper c then ascii_of_N (code c + 32) else c.

(** [s.lower()] *)
Fixpoint lower (s : string) : string :=
  match s with
  | EmptyString => EmptyString
  | String c s' => String (lower_char c) (lower s')
  end.

Fixpoint lstrip (s : string) : string :=
  match s with
  | EmptyString => EmptyString
  | String c s' => if is_space c then lstrip s' else s
  end.

Fixpoint rstrip (s : string) : string :=
  match s with
  | EmptyString => EmptyString
  | String c s' =>
      match rstrip s' with
      | EmptyString => if is_space c then EmptyString else String c EmptyString
      | t => String c t
      end
  end.

(** [s.strip()] *)
Definition strip (s : string) : string := rstrip (lstrip s).

(** [a in b] on strings: [a] occurs in [b] as a substring. *)
Fixpoint str_in (a b : string) : bool :=
  String.prefix a b ||
  match b with
  | EmptyString => false
  | String _ b' => str_in a b'
  end.

(** Truth value of a string and of a list: non-empty. *)
Definition truthy (s : string) : bool :=
  match s with EmptyString => false | _ => true end.

Definition nonempty {A} (l : list A) : bool :=
  match l with [] => false | _ => true end.

(** [sep.join(l)] *)
Definition join (sep : string) (l : list string) : string :=
  String.concat sep l.

(** [len(s)]: the number of characters, that is of bytes that do not
    continue a UTF-8 sequence. *)
Definition is_continuation (c : ascii) : bool :=
  ((128 <=? code c) && (code c <=? 191))%N.

Fixpoint len (s : string) : Z :=
  match s with
  | EmptyString => 0
  | String c s' => (if is_continuation c then 0 else 1) + len s'
  end.

(** [min(a, b)] and [max(a, b)]: the first argument wins a tie. *)
Definition min (a b : Q) : Q := if Qle_bool a b then a else b.

(** [a < b] on numbers *)
Definition ltb (a b : Q) : bool := negb (Qle_bool b a).

(** [max(it, default=d)] over integers *)
Definition max_default (l : list Z) (d : Z) : Z :=
  match l with
  | [] => d
  | x :: l' => foldl Z.max x l'
  end.

(** [sum(it)] over integers *)
Definition sum (l : list Z) : Z := foldl Z.add 0%Z l.

(** [int(s)] on a string of decimal digits *)
Fixpoint int_acc (acc : Z) (s : string) : Z :=
  match s with
  | EmptyString => acc
  | String c s' => int_acc (10 * acc + (Z.of_N (code c) - 48)) s'
  end.

Definition int (s : string) : Z := int_acc 0 s.

(** [float(s)] on the shapes the duration pattern captures:
    digits, digits followed by a dot, digits dot digits. *)
Fixpoint split_dot (s : string) : string * string :=
  match s with
  | EmptyString => (EmptyString, EmptyString)
  | String c s' =>
      if Ascii.eqb c "." then (EmptyString, s')
      else let '(a, b) := split_dot s' in (String c a, b)
  end.

Definition float (s : string) : Q :=
  let '(ip, fp) := split_dot s in
  (inject_Z (int ip) + inject_Z (int fp) / inject_Z (10 ^ Z.of_nat (String.length fp)))%Q.

(** [round(x, 1)]: to the nearest tenth, a tie going to the even
    neighbour. *)
Definition round_half_even (q : Q) : Z :=
  let f := Qfloor q in
  match Qcompare (q - inject_Z f) (1 # 2) with
  | Lt => f
  | Gt => (f + 1)%Z
  | Eq => if Z.even f then f else (f + 1)%Z
  end.

Definition round1 (q : Q) : Q := (inject_Z (round_half_even (q * 10)) / 10)%Q.

(** [set(f(x) for x in l if x)] with [f = lower().strip()], the
    normalisation every scoring function applies to both sides. *)
Definition norm_set (l : list string) : gset string :=
  list_to_set (map (λ s, strip (lower s)) (List.filter truthy l)).

End Py.

(** ** Regular expressions of the source, one matcher per pattern *)

Module Re.
Import Py.

(** Longest prefix of characters of a class, and what follows it. *)
Fixpoint span (p : ascii → bool) (s : string) : string * string :=
  match s with
  | EmptyString => (EmptyString, EmptyString)
  | String c s' =>
      if p c then let '(a, b) := span p s' in (String c a, b)
      else (EmptyString, s)
  end.

(** Case-insensitive literal at the head of [s]; the rest on success. *)
Fixpoint lit_ci (w s : string) : option string :=
  match w, s with
  | EmptyString, _ => Some s
  | String a w', String c s' =>
      if Ascii.eqb (lower_char a) (lower_char c) then lit_ci w' s' else None
  | String _ _, EmptyString => None
  end.

(** An optional character of a class at the head of [s]. *)
Definition opt_char (p : ascii → bool) (s : string) : string * string :=
  match s with
  | String c r => if p c then (String c EmptyString, r) else (EmptyString, s)
  | EmptyString => (EmptyString, s)
  end.

Definition is_dot (c : ascii) : bool := Ascii.eqb c ".".

(** The duration pattern (group 1: one or more digits, an optional
    dot, any digits; then any white space; then [years?]) anchored at
    the head of [s]: group 1.
    Every quantifier is followed by a character outside its class, so
    the greedy choice is the only one that can succeed. *)
Definition duration_at (s : string) : option string :=
  let '(d1, r1) := span is_digit s in
  if truthy d1 then
    let '(dot, r2) := opt_char is_dot r1 in
    let '(d2, r3) := span is_digit r2 in
    let '(_, r4) := span is_space r3 in
    match lit_ci "year" r4 with
    | Some _ => Some (d1 +:+ dot +:+ d2)
    | None => None
    end
  else None.

(** [re.search] of the duration pattern with [re.IGNORECASE]: group 1
    of the leftmost match. *)
Fixpoint search_duration (s : string) : option string :=
  match duration_at s with
  | Some g => Some g
  | None =>
      match s with
      | EmptyString => None
      | String _ s' => search_duration s'
      end
  end.

(** Exactly four digits at the head of [s]. *)
Definition four_digits (s : string) : option (string * string) :=
  match s with
  | String a (String b (String c (String d r))) =>
      if is_digit a && is_digit b && is_digit c && is_digit d
      then Some (String a (String b (String c (String d EmptyString))), r)
      else None
  | _ => None
  end.

(** The class of the two separators: a hyphen, or the en dash U+2013
    (bytes 226 128 147). *)
Definition dash (s : string) : option string :=
  match s with
  | String c r =>
      if Ascii.eqb c "-" then Some r
      else
        match s with
        | String c1 (String c2 (String c3 r')) =>
            if ((code c1 =? 226) && (code c2 =? 128) && (code c3 =? 147))%N
            then Some r' else None
        | _ => None
        end
  | EmptyString => None
  end.

(** [(present|current|\d{4})]: the alternatives in order. *)
Definition range_end (s : string) : option (string * string) :=
  match lit_ci "present" s with
  | Some r => Some (String.substring 0 7 s, r)
  | None =>
      match lit_ci "current" s with
      | Some r => Some (String.substring 0 7 s, r)
      | None => four_digits s
      end
  end.

(** [(\d{4})\s*DASH\s*(present|current|\d{4})] anchored at the head of
    [s]: the two groups and the number of bytes matched. *)
Definition range_at (s : string) : option (string * string * nat) :=
  match four_digits s with
  | Some (start, r1) =>
      let '(_, r2) := span is_space r1 in
      match dash r2 with
      | Some r3 =>
          let '(_, r4) := span is_space r3 in
          match range_end r4 with
          | Some (e, r5) => Some (start, e, (String.length s - String.length r5)%nat)
          | None => None
          end
      | None => None
      end
  | None => None
  end.

(** [re.findall] of the date-range pattern: the matches from left to
    right, the scan resuming where the previous match ended ([skip]
    counts the bytes of it still to pass). *)
Fixpoint findall_ranges_from (skip : nat) (s : string) : list (string * string) :=
  match skip with
  | S k =>
      match s with
      | EmptyString => []
      | String _ s' => findall_ranges_from k s'
      end
  | O =>
      match range_at s with
      | Some (start, e, n) =>
          (start, e) ::
          match s with
          | EmptyString => []
          | String _ s' => findall_ranges_from (Nat.pred n) s'
          end
      | None =>
          match s with
          | EmptyString => []
          | String _ s' => findall_ranges_from 0 s'
          end
      end
  end.

Definition findall_ranges (s : string) : list (string * string) :=
  findall_ranges_from 0 s.

(** The class [[,\s;]] of the tokenizer. *)
Definition is_sep (c : ascii) : bool :=
  Ascii.eqb c "," || Ascii.eqb c ";" || is_space c.

(** [re.split(r'[,\s;]+', s)]: the pieces between maximal runs of
    separators; a separator at either end leaves an empty piece there,
    and the empty string splits into one empty piece. [cur] is the
    current piece, reversed. *)
Fixpoint split_go (cur : string) (in_sep : bool) (s : string) : list string :=
  match s with
  | EmptyString => [String.rev cur]
  | String c s' =>
      if is_sep c then
        if in_sep then split_go cur true s'
        else String.rev cur :: split_go EmptyString true s'
      else split_go (String c cur) false s'
  end.

Definition split (s : string) : list string := split_go EmptyString false s.

End Re.

Import Py.

Local Open Scope Q_scope.

(** ** The scoring functions of [ranking.py] *)

Definition ZQ (z : Z) : Q := inject_Z z.
Definition NQ (n : nat) : Q := inject_Z (Z.of_nat n).

(** [compute_skill_similarity] *)
Definition skill_pair (r_skill j_skill : string) : bool :=
  str_in r_skill j_skill || str_in j_skill r_skill.

Definition compute_skill_similarity (resume_skills required_skills : list string) : Q :=
  let resume_skills := norm_set resume_skills in
  let required_skills := norm_set required_skills in
  if decide (required_skills = ∅) then 0
  else
    let matches := resume_skills ∩ required_skills in
    let partial_matches :=
      (Py.sum (flat_map (λ r_skill,
                 flat_map (λ j_skill,
                   if skill_pair r_skill j_skill then [1%Z] else [])
                   (elements required_skills))
                 (elements resume_skills))
       - Z.of_nat (size matches))%Z in
    let score := (Z.of_nat (size matches) * 5 + partial_matches * 2)%Z in
    let max_possible := (Z.of_nat (size required_skills) * 5)%Z in
    if (0 <? max_possible)%Z
    then Py.min (ZQ score / ZQ max_possible) 1 * 50
    else 0.

(** [compute_experience_score] *)
Definition is_open_end (e : string) : bool :=
  bool_decide (lower e ∈ ["present"; "current"]%string).

Definition range_years (current_year : Z) (se : string * string) : Z :=
  let '(start, e) := se in
  let end_year := if is_open_end e then current_year else Py.int e in
  Z.max (end_year - Py.int start) 0.

Definition experience_step (current_year : Z) (total_years : Q) (exp : string) : Q :=
  match Re.search_duration exp with
  | Some g => total_years + Py.float g
  | None =>
      foldl (λ total se, total + ZQ (range_years current_year se))
            total_years (Re.findall_ranges (lower exp))
  end.

Definition compute_experience_score (current_year : Z)
    (resume_experience : list string) (required_exp : Q) : Q :=
  let total_years := foldl (experience_step current_year) 0 resume_experience in
  if Qle_bool required_exp 0 then
    (if Py.ltb 0 total_years then 30 else 0)
  else
    (if Py.ltb 0 total_years then Py.min (total_years / required_exp) 1 * 30 else 0).

(** [compute_education_similarity] *)
Definition degree_levels : list (string * Z) :=
  [ ("associate", 1); ("diploma", 1);
    ("bachelor", 2); ("bs", 2); ("ba", 2);
    ("master", 3); ("ms", 3); ("mba", 3);
    ("phd", 4); ("doctorate", 4) ]%string%Z.

(** [degree_levels.get(kw, 0)] *)
Fixpoint dict_get (kw : string) (d : list (string * Z)) (dflt : Z) : Z :=
  match d with
  | [] => dflt
  | (k, v) :: d' => if String.eqb k kw then v else dict_get kw d' dflt
  end.

(** [max((degree_levels.get(kw, 0) for kw in degree_levels if kw in edu), default=0)] *)
Definition degree_level (edu : string) : Z :=
  max_default
    (map (λ kw, dict_get kw degree_levels 0)
         (List.filter (λ kw, str_in kw edu) (map fst degree_levels)))
    0.

Definition edu_covers (r_edu j_edu : string) : bool :=
  let r_level := degree_level r_edu in
  let j_level := degree_level j_edu in
  (j_level <=? r_level)%Z && (0 <? j_level)%Z.

(** The nested loop shared by the education and certification scores:
    for each resume entry, the inner loop adds one at the first
    requirement that satisfies [hit] and breaks. *)
Definition count_matches (hit : string → string → bool)
    (resume required : gset string) : Z :=
  foldl (λ matches r, if existsb (hit r) (elements required)
                      then (matches + 1)%Z else matches)
        0%Z (elements resume).

Definition compute_education_similarity (resume_edu required_edu : list string) : Q :=
  let resume_edu := norm_set resume_edu in
  let required_edu := norm_set required_edu in
  if decide (required_edu = ∅) then 0
  else
    let matches := count_matches edu_covers resume_edu required_edu in
    let score := (matches * 10)%Z in
    let max_possible := (Z.of_nat (size required_edu) * 10)%Z in
    if (0 <? max_possible)%Z
    then Py.min (ZQ score / ZQ max_possible) 1 * 15
    else 0.

(** [compute_certification_similarity] *)
Definition generic_cert_keywords : list string :=
  ["certified"; "certification"; "license"; "credential"]%string.

Definition cert_hit (r_cert j_cert : string) : bool :=
  str_in r_cert j_cert || str_in j_cert r_cert ||
  existsb (λ kw, str_in kw r_cert) generic_cert_keywords.

Definition compute_certification_similarity (resume_certs required_certs : list string) : Q :=
  let resume_certs := norm_set resume_certs in
  let required_certs := norm_set required_certs in
  if decide (required_certs = ∅) then 0
  else
    let matches := count_matches cert_hit resume_certs required_certs in
    let score := (matches * 5)%Z in
    let max_possible := (Z.of_nat (size required_certs) * 5)%Z in
    if (0 <? max_possible)%Z
    then Py.min (ZQ score / ZQ max_possible) 1 * 5
    else 0.

(** ** Resumes, job requirements and the ATS score *)

(** A resume is a dict from field names to lists of strings. *)
Abbreviation Resume := (gmap string (list string)).

(** The job dict: each key may be absent. *)
Record JobData := {
  required_skills : option (list string);
  required_experience : option Q;
  required_education : option (list string);
  required_certifications : option (list string)
}.

(** The three parts of the ATS score, before the final cap. *)
Definition ats_keywords (resume_text job_text : string) : Q :=
  let job_keywords : gset string := list_to_set (Re.split job_text) in
  let resume_keywords : gset string := list_to_set (Re.split resume_text) in
  let keyword_matches := size (job_keywords ∩ resume_keywords) in
  if decide (job_keywords ≠ ∅)
  then Py.min (NQ keyword_matches / NQ (size job_keywords)) 1 * 10
  else 0.

Definition ats_sections (skills experience education certifications : list string) : Q :=
  (if nonempty skills then 2 else 0) +
  (if nonempty experience then 2 else 0) +
  (if nonempty education then 2 else 0) +
  (if nonempty certifications then 2 else 0).

Definition ats_length (resume_text : string) : Q :=
  Py.min (ZQ (Py.len resume_text) / 200) 4.

Definition ats_uncapped (skills experience education certifications
                         rskills redu rcerts : list string) : Q :=
  let resume_text :=
    lower (join " " (skills ++ experience ++ education ++ certifications)) in
  let job_text := lower (join " " (rskills ++ redu ++ rcerts)) in
  0 + ats_keywords resume_text job_text
    + ats_sections skills experience education certifications
    + ats_length resume_text.

(** [compute_ats_score]; [None] is the [KeyError] of a missing key. *)
Definition compute_ats_score (resume : Resume) (job_data : JobData) : option Q :=
  skills ← resume !! "skills"%string;
  experience ← resume !! "experience"%string;
  education ← resume !! "education"%string;
  certifications ← resume !! "certifications"%string;
  rskills ← required_skills job_data;
  redu ← required_education job_data;
  rcerts ← required_certifications job_data;
  Some (Py.min (ats_uncapped skills experience education certifications
                             rskills redu rcerts) 20).

(** ** Ranking *)

(** A scored candidate; [rank] is absent until the ranking loop sets it. *)
Record Candidate := {
  score : Q;
  ats_score : Q;
  resume : Resume;
  rank : option Z
}.

Definition set_rank (r : Z) (c : Candidate) : Candidate :=
  {| score := score c; ats_score := ats_score c; resume := resume c; rank := Some r |}.

(** The dict built at the head of the loop body of [rank_candidates]. *)
Definition normalize_resume (r : Resume) : Resume :=
  {[ "skills"%string := default [] (r !! "skills"%string);
     "experience"%string := default [] (r !! "experience"%string);
     "education"%string := default [] (r !! "education"%string);
     "certifications"%string := default [] (r !! "certifications"%string) ]}.

(** [d[k]] on a dict known to hold [k]. *)
Definition field (r : Resume) (k : string) : list string := default [] (r !! k).

(** One iteration of the scoring loop. *)
Definition score_resume (current_year : Z) (job_data : JobData) (r : Resume)
    : option Candidate :=
  let r := normalize_resume r in
  let skills_score :=
    compute_skill_similarity (field r "skills") (default [] (required_skills job_data)) in
  let exp_score :=
    compute_experience_score current_year (field r "experience")
      (default 0 (required_experience job_data)) in
  let edu_score :=
    compute_education_similarity (field r "education")
      (default [] (required_education job_data)) in
  let cert_score :=
    compute_certification_similarity (field r "certifications")
      (default [] (required_certifications job_data)) in
  ats ← compute_ats_score r job_data;
  let total_score := skills_score + exp_score + edu_score + cert_score + ats in
  Some {| score := round1 total_score; ats_score := round1 ats; resume := r; rank := None |}.

(** [list.sort(key=..., reverse=True)]: a stable sort into descending
    order of the key.  An element is inserted in front of the first
    element whose key is not strictly greater, so that among equal keys
    the earlier input stays first. *)
Fixpoint insert_desc (c : Candidate) (l : list Candidate) : list Candidate :=
  match l with
  | [] => [c]
  | d :: l' => if Py.ltb (score c) (score d) then d :: insert_desc c l' else c :: l
  end.

Definition sort_desc (l : list Candidate) : list Candidate :=
  foldr insert_desc [] l.

(** [enumerate(l, start=1)] with the assignment of [rank]. *)
Definition assign_ranks (l : list Candidate) : list Candidate :=
  imap (λ i c, set_rank (1 + Z.of_nat i) c) l.

Definition rank_candidates (current_year : Z) (resume_data_list : list Resume)
    (job_data : JobData) : option (list Candidate) :=
  scored_candidates ← mapM (score_resume current_year job_data) resume_data_list;
  Some (assign_ranks (sort_desc scored_candidates)).

(** * Vocabulary of the statements *)

(** The number of pairs of [l × k] satisfying [p]. *)
Definition count_pairs {A B} (p : A → B → bool) (l : list A) (k : list B) : nat :=
  length (List.filter (λ xy, p xy.1 xy.2) (list_prod l k)).

Definition resume_keys : list string :=
  ["skills"; "experience"; "education"; "certifications"]%string.

Definition resume_complete (r : Resume) : Prop :=
  Forall (λ k, is_Some (r !! k)) resume_keys.

Definition job_complete (j : JobData) : Prop :=
  is_Some (required_skills j) ∧ is_Some (required_education j) ∧
  is_Some (required_certifications j).

Definition desc (c d : Candidate) : Prop := score d <= score c.

Definition score_is (v : Q) (c : Candidate) : bool := Qeq_bool (score c) v.

(** The value of the local [total_score] for a normalized resume. *)
Definition total_score (current_year : Z) (r : Resume) (job_data : JobData) : option Q :=
  ats ← compute_ats_score r job_data;
  Some (compute_skill_similarity (field r "skills") (default [] (required_skills job_data))
        + compute_experience_score current_year (field r "experience")
            (default 0 (required_experience job_data))
        + compute_education_similarity (field r "education")
            (default [] (required_education job_data))
        + compute_certification_similarity (field r "certifications")
            (default [] (required_certifications job_data))
        + ats).

Definition unrank (c : Candidate) : Candidate :=
  {| score := score c; ats_score := ats_score c; resume := resume c; rank := None |}.

(** A resume entry covers a requirement entry. *)
Definition covers (r_edu j_edu : string) : Prop :=
  (degree_level j_edu <= degree_level r_edu)%Z ∧ (0 < degree_level j_edu)%Z.

Global Instance covers_dec r j : Decision (covers r j).
Proof. unfold covers. apply _. Defined.

(** A resume certification matches a required one. *)
Definition cert_match (r_cert j_cert : string) : Prop :=
  str_in r_cert j_cert = true ∨ str_in j_cert r_cert = true ∨
  Exists (λ kw, str_in kw r_cert = true) generic_cert_keywords.

Global Instance cert_match_dec r j : Decision (cert_match r j).
Proof. unfold cert_match. apply _. Defined.

(** The score as C2 words it: [matches] counts the requirement entries
    covered by some resume entry. *)
Definition education_score_by_requirement (resume_edu required_edu : list string) : Q :=
  let R := norm_set resume_edu in
  let J := norm_set required_edu in
  let matches := Z.of_nat (size (filter (λ j, set_Exists (λ r, covers r j) R) J)) in
  if decide (J = ∅) then 0
  else Py.min (ZQ (matches * 10) / ZQ (Z.of_nat (size J) * 10)) 1 * 15.

(** The score as C3 words it: [matches] counts the required
    certifications matched by some resume entry. *)
Definition certification_score_by_requirement (resume_certs required_certs : list string) : Q :=
  let R := norm_set resume_certs in
  let J := norm_set required_certs in
  let matches := Z.of_nat (size (filter (λ j, set_Exists (λ r, cert_match r j) R) J)) in
  if decide (J = ∅) then 0
  else Py.min (ZQ (matches * 5) / ZQ (Z.of_nat (size J) * 5)) 1 * 5.

Definition Qsum (l : list Q) : Q := foldr Qplus 0 l.

(** What one experience entry adds to [total_years]: the value of the
    duration pattern when it matches, and only otherwise the years of
    the date ranges. *)
Definition entry_years (current_year : Z) (exp : string) : Q :=
  match Re.search_duration exp with
  | Some g => Py.float g
  | None => Qsum (map (λ se, ZQ (range_years current_year se))
                      (Re.findall_ranges (lower exp)))
  end.

Definition total_years (current_year : Z) (resume_experience : list string) : Q :=
  Qsum (map (entry_years current_year) resume_experience).

(** What the scoring loop stores in a candidate. *)
Definition scored_from (current_year : Z) (job_data : JobData) (c : Candidate) : Prop :=
  ∃ t a, total_score current_year (resume c) job_data = Some t ∧
         compute_ats_score (resume c) job_data = Some a ∧
         score c = round1 t ∧ ats_score c = round1 a.

(** ** A declarative reading of the patterns *)

(** Every character of [s] is in the class [p]. *)
Fixpoint all_in (p : ascii → bool) (s : string) : bool :=
  match s with
  | EmptyString => true
  | String c s' => p c && all_in p s'
  end.

(** [s] does not begin with a character of the class [p]. *)
Definition stops (p : ascii → bool) (s : string) : bool :=
  match s with
  | EmptyString => true
  | String c _ => negb (p c)
  end.

(** [s] does not end with a character of the class [p]. *)
Fixpoint ends_outside (p : ascii → bool) (s : string) : bool :=
  match s with
  | EmptyString => true
  | String c EmptyString => negb (p c)
  | String _ s' => ends_outside p s'
  end.

(** A pattern language with the usual declarative reading: which
    strings a pattern accepts, with no notion of priority. *)
Inductive pattern : Type :=
| Empty
| Class (p : ascii → bool)
| Seq (a b : pattern)
| Or (a b : pattern)
| Many (a : pattern).

Inductive accepts : pattern → string → Prop :=
| acc_empty : accepts Empty EmptyString
| acc_class p c : p c = true → accepts (Class p) (String c EmptyString)
| acc_seq a b s t : accepts a s → accepts b t → accepts (Seq a b) (s +:+ t)
| acc_or_l a b s : accepts a s → accepts (Or a b) s
| acc_or_r a b s : accepts b s → accepts (Or a b) s
| acc_many_nil a : accepts (Many a) EmptyString
| acc_many_cons a s t : accepts a s → accepts (Many a) t → accepts (Many a) (s +:+ t).

Definition some1 (a : pattern) : pattern := Seq a (Many a).
Definition maybe (a : pattern) : pattern := Or a Empty.

(** One letter under [re.IGNORECASE]. *)
Definition same_letter (a c : ascii) : bool := Ascii.eqb (lower_char a) (lower_char c).
Definition ci (a : ascii) : pattern := Class (same_letter a).

Fixpoint word_ci (w : string) : pattern :=
  match w with
  | EmptyString => Empty
  | String a w' => Seq (ci a) (word_ci w')
  end.

(** The duration pattern, split at the end of its group. *)
Definition duration_group : pattern :=
  Seq (some1 (Class is_digit)) (Seq (maybe (Class Re.is_dot)) (Many (Class is_digit))).

Definition duration_tail : pattern :=
  Seq (Many (Class is_space)) (Seq (word_ci "year") (maybe (ci "s"))).

(** The date-range pattern. *)
Definition year4 : pattern :=
  Seq (Class is_digit) (Seq (Class is_digit) (Seq (Class is_digit) (Class is_digit))).

Definition byte_is (n : N) (c : ascii) : bool := (code c =? n)%N.

Definition dash_class : pattern :=
  Or (Class (λ c, Ascii.eqb c "-"))
     (Seq (Class (byte_is 226)) (Seq (Class (byte_is 128)) (Class (byte_is 147)))).

Definition range_end_pattern : pattern :=
  Or (word_ci "present") (Or (word_ci "current") year4).

(** The strings the duration pattern accepts at the head of [s], with
    their group. *)
Definition duration_match (s g : string) : Prop :=
  ∃ w rest, s = g +:+ w +:+ rest ∧ accepts duration_group g ∧ accepts duration_tail w.

Definition is_hyphen (c : ascii) : bool := Ascii.eqb c "-".

(** The strings the date-range pattern accepts at the head of [s],
    with their two groups and the length of the match. *)
Definition range_match (s a e : string) (n : nat) : Prop :=
  ∃ sp1 d sp2 rest,
    s = a +:+ sp1 +:+ d +:+ sp2 +:+ e +:+ rest ∧
    accepts year4 a ∧ accepts (Many (Class is_space)) sp1 ∧ accepts dash_class d ∧
    accepts (Many (Class is_space)) sp2 ∧ accepts range_end_pattern e ∧
    n = String.length (a +:+ sp1 +:+ d +:+ sp2 +:+ e).

Fixpoint drop_s (n : nat) (s : string) : string :=
  match n, s with
  | O, _ => s
  | S _, EmptyString => EmptyString
  | S k, String _ s' => drop_s k s'
  end.

Definition not_sep (c : ascii) : bool := negb (Re.is_sep c).

(** ** Inputs of the examples *)

Fixpoint replicate_char (n : nat) (c : ascii) : string :=
  match n with
  | O => EmptyString
  | S n' => String c (replicate_char n' c)
  end.


Definition python_job : JobData :=
  {| required_skills := Some ["python"]%string;
     required_experience := Some 0;
     required_education := Some [];
     required_certifications := Some [] |}.

Definition empty_job : JobData :=
  {| required_skills := Some [];
     required_experience := Some 0;
     required_education := Some [];
     required_certifications := Some [] |}.

Definition short_resume : Resume := {[ "skills"%string := ["aaaaaaaaa"]%string ]}.
Definition longer_resume : Resume := {[ "skills"%string := ["aaaaaaaaaaa"]%string ]}.

Definition contact_resume : Resume :=
  {[ "skills"%string := ["python"]%string;
     "email"%string := ["ada@example.org"]%string ]}.

Definition strong_resume : Resume :=
  {[ "skills"%string := ["python"]%string;
     "experience"%string := ["5 years"]%string;
     "education"%string := ["phd"]%string;
     "certifications"%string := ["certified aws"]%string ]}.

Definition strong_job : JobData :=
  {| required_skills := Some ["python"]%string;
     required_experience := Some 0;
     required_education := Some ["bachelor"]%string;
     required_certifications := Some ["aws"]%string |}.

(** A resume that meets every requirement and is long enough for the
    full length bonus. *)
Definition best_resume : Resume :=
  {[ "skills"%string := ["python"]%string;
     "experience"%string := ["5 years" +:+ replicate_char 800 "x"];
     "education"%string := ["phd"]%string;
     "certifications"%string := ["aws"]%string ]}.

Definition best_job : JobData :=
  {| required_skills := Some ["python"]%string;
     required_experience := Some 0;
     required_education := Some ["phd"]%string;
     required_certifications := Some ["aws"]%string |}.

(** * Properties *)

(** ** The built-ins and matchers on small inputs *)

Example lower_ex : Py.lower "Machine Learning" = "machine learning".
Proof. reflexivity. Qed.

Example strip_ex : Py.strip "  data science	 " = "data science".
Proof. reflexivity. Qed.

Example split_ex1 : Re.split "" = [""].
Proof. reflexivity. Qed.

Example split_ex2 : Re.split "python, sql;  aws " = ["python"; "sql"; "aws"; ""].
Proof. reflexivity. Qed.

Example search_duration_ex1 : Re.search_duration "Engineer, 5 Years at X" = Some "5".
Proof. reflexivity. Qed.

Example search_duration_ex2 : Re.search_duration "12.34.5years" = Some "34.5".
Proof. reflexivity. Qed.

Example search_duration_ex3 : Re.search_duration "2015 - 2020" = None.
Proof. reflexivity. Qed.

Example findall_ex1 :
  Re.findall_ranges "acme 2015 - 2018, initech 2019-present" =
  [("2015", "2018"); ("2019", "present")].
Proof. reflexivity. Qed.

Example findall_ex2 : Re.findall_ranges "2010-2015-2020" = [("2010", "2015")].
Proof. reflexivity. Qed.

Example float_ex : (Py.float "34.5" == 69 # 2)%Q.
Proof. reflexivity. Qed.

Example findall_ex3 :
  Re.findall_ranges "2019 – current, 12345–20201" = [("2019", "current"); ("2345", "2020")].
Proof. reflexivity. Qed.

Example len_ex : Py.len "2019 – now" = 10%Z.
Proof. reflexivity. Qed.

(** ** Arithmetic of [min] and of scaled ratios *)

Section MinFacts.

Lemma min_cases (a b : Q) :
  (a <= b ∧ Py.min a b = a) ∨ (b < a ∧ Py.min a b = b).
Proof.
  unfold Py.min. destruct (Qle_bool a b) eqn:E.
  - left. split; [by apply Qle_bool_iff | done].
  - right. split; [|done]. apply Qnot_le_lt. intros H.
    apply Qle_bool_iff in H. congruence.
Qed.

Lemma min_le_l (a b : Q) : Py.min a b <= a.
Proof. destruct (min_cases a b) as [[? ->]|[? ->]]; lra. Qed.

Lemma min_le_r (a b : Q) : Py.min a b <= b.
Proof. destruct (min_cases a b) as [[? ->]|[? ->]]; lra. Qed.

Lemma min_glb (a b c : Q) : c <= a → c <= b → c <= Py.min a b.
Proof. intros. destruct (min_cases a b) as [[? ->]|[? ->]]; lra. Qed.


Lemma ltb_spec (a b : Q) : Py.ltb a b = true ↔ a < b.
Proof.
  unfold Py.ltb. rewrite negb_true_iff. split.
  - intros E. apply Qnot_le_lt. intros H. apply Qle_bool_iff in H. congruence.
  - intros H. destruct (Qle_bool b a) eqn:E; [|done].
    apply Qle_bool_iff in E. lra.
Qed.

Lemma ltb_false (a b : Q) : Py.ltb a b = false ↔ b <= a.
Proof.
  unfold Py.ltb. rewrite negb_false_iff. apply Qle_bool_iff.
Qed.

Lemma ratio_nonneg (a b : Z) : (0 <= a)%Z → (0 < b)%Z → 0 <= ZQ a / ZQ b.
Proof.
  intros Ha Hb. unfold ZQ. apply Qle_shift_div_l.
  - change 0 with (inject_Z 0). by rewrite <- Zlt_Qlt.
  - rewrite Qmult_0_l. change 0 with (inject_Z 0). by rewrite <- Zle_Qle.
Qed.

(** A capped ratio scaled by [c] lies between [0] and [c]. *)
Lemma capped_scaled_bounds (x c : Q) :
  0 <= x → 0 <= c → 0 <= Py.min x 1 * c ∧ Py.min x 1 * c <= c.
Proof.
  intros Hx Hc. destruct (min_cases x 1) as [[? ->]|[? ->]]; nra.
Qed.

End MinFacts.

(** ** Strings and normalised sets *)

Lemma prefix_refl (s : string) : String.prefix s s = true.
Proof.
  induction s as [|c s IH]; simpl; [done|].
  destruct (ascii_dec c c); [done | congruence].
Qed.

Lemma str_in_prefix (a b : string) : String.prefix a b = true → str_in a b = true.
Proof. intros H. destruct b; cbn [str_in]; rewrite H; done. Qed.

Lemma str_in_refl (s : string) : str_in s s = true.
Proof. apply str_in_prefix, prefix_refl. Qed.

Lemma skill_pair_refl (s : string) : skill_pair s s = true.
Proof. unfold skill_pair. by rewrite str_in_refl. Qed.

(** Membership in a normalised set: the lower-cased, trimmed image of a
    non-empty entry. *)
Lemma elem_of_norm_set (x : string) (l : list string) :
  x ∈ norm_set l ↔ ∃ s, s ∈ l ∧ s ≠ EmptyString ∧ x = strip (lower s).
Proof.
  unfold norm_set. rewrite elem_of_list_to_set, list_elem_of_In, in_map_iff.
  split.
  - intros (s & <- & Hs). apply filter_In in Hs as [Hs Ht].
    exists s. split; [by apply list_elem_of_In|]. split; [|done].
    intros ->. done.
  - intros (s & Hs & Hne & ->). exists s. split; [done|].
    apply filter_In. split; [by apply list_elem_of_In|].
    destruct s; done.
Qed.

Lemma norm_set_nil : norm_set [] = ∅.
Proof. done. Qed.

Lemma size_pos_of_nonempty (X : gset string) : X ≠ ∅ → (0 < Z.of_nat (size X))%Z.
Proof.
  intros H. assert (size X ≠ 0%nat); [|lia].
  intros E. apply size_empty_inv in E. apply H. by apply leibniz_equiv.
Qed.

(** ** The matchers against a declarative reading of the patterns *)

Lemma app_cons_s (c : ascii) (a b : string) : String c a +:+ b = String c (a +:+ b).
Proof. reflexivity. Qed.

Lemma app_empty_l (s : string) : EmptyString +:+ s = s.
Proof. reflexivity. Qed.

Lemma app_empty_r (s : string) : s +:+ EmptyString = s.
Proof. induction s as [|c s IH]; [done | by rewrite app_cons_s, IH]. Qed.

Lemma app_assoc_s (a b c : string) : (a +:+ b) +:+ c = a +:+ (b +:+ c).
Proof. induction a as [|x a IH]; [done | by rewrite !app_cons_s, IH]. Qed.

Lemma app_length_s (a b : string) :
  String.length (a +:+ b) = (String.length a + String.length b)%nat.
Proof. induction a as [|x a IH]; [done | rewrite app_cons_s; simpl; by rewrite IH]. Qed.

Lemma all_in_app (p : ascii → bool) (a b : string) :
  all_in p (a +:+ b) = all_in p a && all_in p b.
Proof.
  induction a as [|x a IH]; [done|].
  rewrite app_cons_s. simpl. by rewrite IH, andb_assoc.
Qed.

Lemma span_sound (p : ascii → bool) (s a b : string) :
  Re.span p s = (a, b) → s = a +:+ b ∧ all_in p a = true ∧ stops p b = true.
Proof.
  revert a b. induction s as [|c s IH]; intros a b; simpl.
  - intros [= <- <-]. done.
  - destruct (p c) eqn:E.
    + destruct (Re.span p s) as [a' b'] eqn:Es. intros [= <- <-].
      destruct (IH a' b' eq_refl) as (-> & Ha & Hb).
      rewrite app_cons_s. simpl. by rewrite E, Ha.
    + intros [= <- <-]. rewrite app_empty_l. simpl. by rewrite E.
Qed.

Lemma span_complete (p : ascii → bool) (a b : string) :
  all_in p a = true → stops p b = true → Re.span p (a +:+ b) = (a, b).
Proof.
  intros Ha Hb. induction a as [|c a IH].
  - rewrite app_empty_l. destruct b as [|c b]; simpl in *; [done|].
    apply negb_true_iff in Hb. by rewrite Hb.
  - simpl in Ha. apply andb_true_iff in Ha as [Hc Ha].
    rewrite app_cons_s. simpl. by rewrite Hc, (IH Ha).
Qed.

Lemma span_stops (p : ascii → bool) (s : string) :
  stops p s = true → Re.span p s = (EmptyString, s).
Proof. apply (span_complete p EmptyString s). done. Qed.

Lemma accepts_many_class (p : ascii → bool) (s : string) :
  accepts (Many (Class p)) s ↔ all_in p s = true.
Proof.
  split.
  - intros H. remember (Many (Class p)) as r eqn:Er.
    induction H as [| | | | | |a s t Ha _ Ht IH]; try discriminate; [done|].
    injection Er as ->. inversion Ha as [|? c Hc| | | | |]; subst.
    rewrite app_cons_s, app_empty_l. simpl. by rewrite Hc, IH.
  - induction s as [|c s IH]; simpl; intros H; [constructor|].
    apply andb_true_iff in H as [Hc Hs].
    change (String c s) with (String c EmptyString +:+ s).
    constructor; [by constructor | by apply IH].
Qed.

Lemma accepts_some1_class (p : ascii → bool) (s : string) :
  accepts (some1 (Class p)) s ↔ all_in p s = true ∧ s ≠ EmptyString.
Proof.
  unfold some1. split.
  - intros H. inversion H as [| |? ? a b Ha Hb| | | |]; subst.
    inversion Ha as [|? c Hc| | | | |]; subst.
    apply accepts_many_class in Hb. rewrite app_cons_s, app_empty_l. simpl.
    by rewrite Hc, Hb.
  - intros [H Hne]. destruct s as [|c s]; [done|]. simpl in H.
    apply andb_true_iff in H as [Hc Hs].
    change (String c s) with (String c EmptyString +:+ s).
    constructor; [by constructor | by apply accepts_many_class].
Qed.

Lemma accepts_word_ci (w s : string) :
  accepts (word_ci w) s ↔ Re.lit_ci w s = Some EmptyString.
Proof.
  revert s. induction w as [|a w IH]; intros s; simpl.
  - split.
    + intros H. by inversion H.
    + intros [= ->]. constructor.
  - split.
    + intros H. inversion H as [| |? ? x y Hx Hy| | | |]; subst.
      inversion Hx as [|? c Hc| | | | |]; subst.
      rewrite app_cons_s, app_empty_l. unfold same_letter in Hc. rewrite Hc.
      by apply IH.
    + destruct s as [|c s]; [done|].
      destruct (Ascii.eqb (lower_char a) (lower_char c)) eqn:E; [|done].
      intros H. change (String c s) with (String c EmptyString +:+ s).
      constructor; [by constructor | by apply IH].
Qed.

(** A literal is matched at the head of [m +:+ r] exactly when [m] is
    the literal up to case. *)
Lemma lit_ci_app (w m r : string) :
  Re.lit_ci w m = Some EmptyString → Re.lit_ci w (m +:+ r) = Some r.
Proof.
  revert m. induction w as [|a w IH]; intros m; simpl.
  - intros [= ->]. done.
  - destruct m as [|c m]; [done|]. rewrite app_cons_s.
    destruct (Ascii.eqb (lower_char a) (lower_char c)); [apply IH | done].
Qed.

Lemma lit_ci_split (w s r : string) :
  Re.lit_ci w s = Some r →
  ∃ m, s = m +:+ r ∧ Re.lit_ci w m = Some EmptyString ∧ String.length m = String.length w.
Proof.
  revert s. induction w as [|a w IH]; intros s; simpl.
  - intros [= ->]. by exists EmptyString.
  - destruct s as [|c s]; [done|].
    destruct (Ascii.eqb (lower_char a) (lower_char c)) eqn:E; [|done].
    intros H. destruct (IH _ H) as (m & -> & Hm & Hl).
    exists (String c m). simpl. by rewrite E, Hm, Hl.
Qed.

(** Facts about single characters, by cases on the byte. *)
Ltac by_byte c := destruct c as [[] [] [] [] [] [] [] []]; vm_compute; intuition congruence.

Lemma space_not_digit (c : ascii) : is_space c = true → is_digit c = false.
Proof. by_byte c. Qed.

Lemma space_not_dot (c : ascii) : is_space c = true → Re.is_dot c = false.
Proof. by_byte c. Qed.

Lemma dot_not_digit (c : ascii) : Re.is_dot c = true → is_digit c = false.
Proof. by_byte c. Qed.

Lemma letter_y (c : ascii) :
  same_letter "y" c = true →
  is_digit c = false ∧ is_space c = false ∧ Re.is_dot c = false.
Proof. by_byte c. Qed.

(** The first character of a word accepted by a literal. *)
Lemma lit_ci_head (a : ascii) (w y : string) :
  Re.lit_ci (String a w) y = Some EmptyString →
  ∃ c y', y = String c y' ∧ same_letter a c = true.
Proof.
  simpl. destruct y as [|c y']; [done|].
  destruct (Ascii.eqb (lower_char a) (lower_char c)) eqn:E; [|done].
  intros _. by exists c, y'.
Qed.

Ltac norm_app :=
  repeat first [rewrite app_assoc_s | rewrite app_cons_s
               | rewrite app_empty_l | rewrite app_empty_r].

Lemma stops_app (p q : ascii → bool) (a t : string) :
  all_in q a = true → (∀ c, q c = true → p c = false) →
  stops p t = true → stops p (a +:+ t) = true.
Proof.
  intros Ha Hq Ht. destruct a as [|c a]; [done|].
  rewrite app_cons_s. simpl in *. apply andb_true_iff in Ha as [Hc _].
  by rewrite (Hq c Hc).
Qed.

Lemma opt_char_hit (p : ascii → bool) (c : ascii) (r : string) :
  p c = true → Re.opt_char p (String c r) = (String c EmptyString, r).
Proof. intros H. simpl. by rewrite H. Qed.

Lemma opt_char_stops (p : ascii → bool) (s : string) :
  stops p s = true → Re.opt_char p s = (EmptyString, s).
Proof.
  destruct s as [|c s]; simpl; [done|]. intros H.
  apply negb_true_iff in H. by rewrite H.
Qed.

Lemma opt_char_sound (p : ascii → bool) (s a b : string) :
  Re.opt_char p s = (a, b) → s = a +:+ b ∧ accepts (maybe (Class p)) a.
Proof.
  destruct s as [|c s]; simpl.
  - intros [= <- <-]. split; [done|]. apply acc_or_r. constructor.
  - destruct (p c) eqn:E; intros [= <- <-].
    + split; [done|]. apply acc_or_l. by constructor.
    + split; [done|]. apply acc_or_r. constructor.
Qed.

Lemma truthy_ne (s : string) : truthy s = true ↔ s ≠ EmptyString.
Proof. destruct s; simpl; split; done. Qed.

Lemma duration_at_sound (s g : string) : Re.duration_at s = Some g → duration_match s g.
Proof.
  unfold Re.duration_at.
  destruct (Re.span is_digit s) as [d1 r1] eqn:E1.
  destruct (truthy d1) eqn:Et; [|done].
  destruct (Re.opt_char Re.is_dot r1) as [dot r2] eqn:E2.
  destruct (Re.span is_digit r2) as [d2 r3] eqn:E3.
  destruct (Re.span is_space r3) as [sp r4] eqn:E4.
  destruct (Re.lit_ci "year" r4) as [r5|] eqn:E5; [|done].
  intros [= <-].
  apply span_sound in E1 as (-> & H1 & _).
  apply opt_char_sound in E2 as (-> & Hdot).
  apply span_sound in E3 as (-> & H3 & _).
  apply span_sound in E4 as (-> & H4 & _).
  apply lit_ci_split in E5 as (y & -> & Hy & _).
  exists (sp +:+ y +:+ EmptyString), r5. split; [|split].
  - by norm_app.
  - constructor; [apply accepts_some1_class; by rewrite truthy_ne in Et|].
    constructor; [done | by apply accepts_many_class].
  - constructor; [by apply accepts_many_class|].
    constructor; [by apply accepts_word_ci | apply acc_or_r; constructor].
Qed.

(** Whatever way the pattern is matched at the head of [s], the group
    is the one the matcher returns: priorities play no role. *)
Lemma duration_at_complete (s g : string) : duration_match s g → Re.duration_at s = Some g.
Proof.
  intros (w & rest & -> & Hg & Hw).
  inversion Hg as [| |? ? d1 g' Hd1 Hg'| | | |]; subst.
  inversion Hg' as [| |? ? dot d2 Hdot Hd2| | | |]; subst.
  inversion Hw as [| |? ? sp w' Hsp Hw'| | | |]; subst.
  inversion Hw' as [| |? ? y o Hy Ho| | | |]; subst.
  apply accepts_some1_class in Hd1 as [Hd1 Hne].
  apply accepts_many_class in Hd2. apply accepts_many_class in Hsp.
  apply (accepts_word_ci "year") in Hy.
  destruct (lit_ci_head _ _ _ Hy) as (c & y' & -> & Hc).
  destruct (letter_y c Hc) as (Hcd & Hcs & Hcdot).
  set (tl := o +:+ rest).
  assert (Hlit : Re.lit_ci "year" (String c y' +:+ tl) = Some tl) by by apply lit_ci_app.
  assert (Hstop_sp : stops is_space (String c y' +:+ tl) = true)
    by (rewrite app_cons_s; simpl; by rewrite Hcs).
  assert (Hstop_d : stops is_digit (sp +:+ String c y' +:+ tl) = true).
  { apply (stops_app is_digit is_space); [done | apply space_not_digit|].
    rewrite app_cons_s. simpl. by rewrite Hcd. }
  assert (Hstop_dot : stops Re.is_dot (sp +:+ String c y' +:+ tl) = true).
  { apply (stops_app Re.is_dot is_space); [done | apply space_not_dot|].
    rewrite app_cons_s. simpl. by rewrite Hcdot. }
  unfold Re.duration_at.
  inversion Hdot as [| | |? ? ? Hd| ? ? ? He| |]; subst.
  - inversion Hd as [|? x Hx| | | | |]; subst.
    replace ((d1 +:+ String x EmptyString +:+ d2) +:+ (sp +:+ String c y' +:+ o) +:+ rest)
      with (d1 +:+ String x (d2 +:+ sp +:+ String c y' +:+ tl))
      by (unfold tl; by norm_app).
    rewrite (span_complete is_digit d1) by (done || (simpl; by rewrite (dot_not_digit x Hx))).
    rewrite (proj2 (truthy_ne d1) Hne), (opt_char_hit _ _ _ Hx).
    rewrite (span_complete is_digit d2) by done.
    rewrite (span_complete is_space sp) by done.
    by rewrite Hlit.
  - inversion He; subst.
    replace ((d1 +:+ EmptyString +:+ d2) +:+ (sp +:+ String c y' +:+ o) +:+ rest)
      with ((d1 +:+ d2) +:+ sp +:+ String c y' +:+ tl)
      by (unfold tl; by norm_app).
    rewrite (span_complete is_digit (d1 +:+ d2)) by (done || by rewrite all_in_app, Hd1, Hd2).
    assert (Ht : truthy (d1 +:+ d2) = true).
    { apply truthy_ne. destruct d1; [done | by rewrite app_cons_s]. }
    rewrite Ht, (opt_char_stops _ _ Hstop_dot), (span_stops _ _ Hstop_d).
    rewrite (span_complete is_space sp) by done.
    rewrite Hlit. by rewrite !app_empty_l, app_empty_r.
Qed.

Theorem duration_at_iff (s g : string) : Re.duration_at s = Some g ↔ duration_match s g.
Proof. split; [apply duration_at_sound | apply duration_at_complete]. Qed.

(** [re.search] returns the match at the leftmost position that has
    one. *)
Lemma search_duration_leftmost (s g : string) :
  Re.search_duration s = Some g ↔
  ∃ pre s', s = pre +:+ s' ∧ duration_match s' g ∧
            ∀ pre1 s1 g1, s = pre1 +:+ s1 →
                          (String.length pre1 < String.length pre)%nat →
                          ¬ duration_match s1 g1.
Proof.
  revert g. induction s as [|c s IH]; intros g.
  - cbn [Re.search_duration]. split.
    + destruct (Re.duration_at EmptyString) eqn:E; [|done]. intros [= ->].
      exists EmptyString, EmptyString. split; [done|].
      split; [by apply duration_at_iff|]. intros ? ? ? _ Hl. simpl in Hl. lia.
    + intros (pre & s' & Hs & Hm & _).
      destruct pre; [|done]. rewrite app_empty_l in Hs. subst s'.
      apply duration_at_iff in Hm. by rewrite Hm.
  - cbn [Re.search_duration].
    destruct (Re.duration_at (String c s)) as [g0|] eqn:E.
    + split.
      * intros [= ->]. exists EmptyString, (String c s). split; [done|].
        split; [by apply duration_at_iff|]. intros ? ? ? _ Hl. simpl in Hl. lia.
      * intros (pre & s' & Hs & Hm & Hleft).
        destruct pre as [|x pre].
        -- rewrite app_empty_l in Hs. subst s'.
           apply duration_at_iff in Hm. congruence.
        -- exfalso. apply (Hleft EmptyString (String c s) g0); [done | simpl; lia|].
           by apply duration_at_iff.
    + rewrite IH. split.
      * intros (pre & s' & -> & Hm & Hleft).
        exists (String c pre), s'. split; [done|]. split; [done|].
        intros pre1 s1 g1 Hs Hl Hm1.
        destruct pre1 as [|x pre1].
        -- rewrite app_empty_l in Hs. subst s1.
           apply duration_at_iff in Hm1. congruence.
        -- rewrite !app_cons_s in Hs. injection Hs as -> Hs.
           apply (Hleft pre1 s1 g1); [done | simpl in Hl; lia | done].
      * intros (pre & s' & Hs & Hm & Hleft).
        destruct pre as [|x pre].
        -- rewrite app_empty_l in Hs. subst s'.
           apply duration_at_iff in Hm. congruence.
        -- rewrite app_cons_s in Hs. injection Hs as -> Hs.
           exists pre, s'. split; [done|]. split; [done|].
           intros pre1 s1 g1 Hs1 Hl. apply (Hleft (String x pre1) s1 g1).
           ++ by rewrite app_cons_s, Hs1.
           ++ simpl. lia.
Qed.

(** *** The date-range pattern *)

Lemma letter_p (c : ascii) :
  same_letter "p" c = true → is_digit c = false ∧ is_space c = false.
Proof. by_byte c. Qed.

Lemma letter_c (c : ascii) :
  same_letter "c" c = true →
  is_digit c = false ∧ is_space c = false ∧ same_letter "p" c = false.
Proof. by_byte c. Qed.

Lemma digit_not_letter (c : ascii) :
  is_digit c = true →
  is_space c = false ∧ same_letter "p" c = false ∧ same_letter "c" c = false.
Proof. by_byte c. Qed.

Lemma hyphen_not_space (c : ascii) : is_hyphen c = true → is_space c = false.
Proof. by_byte c. Qed.

Lemma byte226_facts (c : ascii) :
  byte_is 226 c = true → is_space c = false ∧ Ascii.eqb c "-" = false.
Proof. by_byte c. Qed.

Lemma four_digits_sound (s a r : string) :
  Re.four_digits s = Some (a, r) → s = a +:+ r ∧ accepts year4 a ∧ String.length a = 4%nat.
Proof.
  unfold Re.four_digits.
  destruct s as [|c1 [|c2 [|c3 [|c4 s]]]]; try done.
  destruct (is_digit c1) eqn:E1; [|done]. destruct (is_digit c2) eqn:E2; [|done].
  destruct (is_digit c3) eqn:E3; [|done]. destruct (is_digit c4) eqn:E4; [|done].
  simpl. intros [= <- <-]. split; [done|]. split; [|done].
  change (String c1 (String c2 (String c3 (String c4 EmptyString))))
    with (String c1 EmptyString +:+ String c2 EmptyString +:+ String c3 EmptyString
          +:+ String c4 EmptyString).
  repeat (constructor; [by constructor|]). by constructor.
Qed.

Lemma year4_shape (a : string) :
  accepts year4 a →
  ∃ c1 c2 c3 c4, a = String c1 (String c2 (String c3 (String c4 EmptyString))) ∧
                 is_digit c1 = true ∧ is_digit c2 = true ∧
                 is_digit c3 = true ∧ is_digit c4 = true.
Proof.
  intros H.
  inversion H as [| |? ? s1 t1 H1 H1'| | | |]; subst.
  inversion H1' as [| |? ? s2 t2 H2 H2'| | | |]; subst.
  inversion H2' as [| |? ? s3 t3 H3 H4| | | |]; subst.
  inversion H1; inversion H2; inversion H3; inversion H4; subst.
  eexists _, _, _, _. split; [reflexivity|]. done.
Qed.

Lemma four_digits_complete (a r : string) :
  accepts year4 a → Re.four_digits (a +:+ r) = Some (a, r).
Proof.
  intros H. destruct (year4_shape a H) as (c1 & c2 & c3 & c4 & -> & H1 & H2 & H3 & H4).
  norm_app. unfold Re.four_digits. by rewrite H1, H2, H3, H4.
Qed.

Lemma dash_sound (s r : string) :
  Re.dash s = Some r → ∃ d, s = d +:+ r ∧ accepts dash_class d.
Proof.
  unfold Re.dash. destruct s as [|c s]; [done|].
  destruct (Ascii.eqb c "-") eqn:E.
  - intros [= <-]. exists (String c EmptyString). split; [done|].
    apply acc_or_l. by constructor.
  - destruct s as [|c2 [|c3 s]]; try done.
    destruct ((code c =? 226)%N) eqn:E1; [|done].
    destruct ((code c2 =? 128)%N) eqn:E2; [|done].
    destruct ((code c3 =? 147)%N) eqn:E3; [|done].
    simpl. intros [= <-].
    exists (String c EmptyString +:+ String c2 EmptyString +:+ String c3 EmptyString).
    split; [done|]. apply acc_or_r.
    repeat (constructor; [by constructor|]). by constructor.
Qed.

Lemma dash_shape (d : string) :
  accepts dash_class d →
  (∃ c, d = String c EmptyString ∧ is_hyphen c = true) ∨
  (∃ c1 c2 c3, d = String c1 (String c2 (String c3 EmptyString)) ∧
               byte_is 226 c1 = true ∧ byte_is 128 c2 = true ∧ byte_is 147 c3 = true).
Proof.
  intros H. inversion H as [| | |? ? ? Hl|? ? ? Hr| |]; subst.
  - inversion Hl; subst. left. eauto.
  - inversion Hr as [| |? ? s1 t1 H1 H1'| | | |]; subst.
    inversion H1' as [| |? ? s2 t2 H2 H3| | | |]; subst.
    inversion H1; inversion H2; inversion H3; subst. right.
    eexists _, _, _. split; [reflexivity|]. done.
Qed.

Lemma dash_complete (d r : string) : accepts dash_class d → Re.dash (d +:+ r) = Some r.
Proof.
  intros H. destruct (dash_shape d H) as [(c & -> & Hc)|(c1 & c2 & c3 & -> & H1 & H2 & H3)].
  - norm_app. unfold Re.dash. unfold is_hyphen in Hc. by rewrite Hc.
  - norm_app. unfold Re.dash. destruct (byte226_facts c1 H1) as [_ ->].
    unfold byte_is in *. by rewrite H1, H2, H3.
Qed.

Lemma dash_stops_space (d t : string) :
  accepts dash_class d → stops is_space (d +:+ t) = true.
Proof.
  intros H. destruct (dash_shape d H) as [(c & -> & Hc)|(c1 & c2 & c3 & -> & H1 & _)];
    norm_app; simpl.
  - by rewrite (hyphen_not_space c Hc).
  - by destruct (byte226_facts c1 H1) as [-> _].
Qed.

Lemma substring_prefix (m r : string) :
  String.substring 0 (String.length m) (m +:+ r) = m.
Proof.
  induction m as [|c m IH]; [by destruct r|].
  rewrite app_cons_s. simpl. by rewrite IH.
Qed.

Lemma lit_ci_fails (a c : ascii) (w s : string) :
  same_letter a c = false → Re.lit_ci (String a w) (String c s) = None.
Proof. intros H. simpl. unfold same_letter in H. by rewrite H. Qed.

Lemma range_end_sound (s e r : string) :
  Re.range_end s = Some (e, r) → s = e +:+ r ∧ accepts range_end_pattern e.
Proof.
  unfold Re.range_end.
  destruct (Re.lit_ci "present" s) as [r1|] eqn:E1.
  { intros [= <- <-]. apply lit_ci_split in E1 as (m & -> & Hm & Hl).
    change 7%nat with (String.length "present"). rewrite <- Hl, substring_prefix.
    split; [done|]. apply acc_or_l. by apply accepts_word_ci. }
  destruct (Re.lit_ci "current" s) as [r2|] eqn:E2.
  { intros [= <- <-]. apply lit_ci_split in E2 as (m & -> & Hm & Hl).
    change 7%nat with (String.length "current"). rewrite <- Hl, substring_prefix.
    split; [done|]. apply acc_or_r, acc_or_l. by apply accepts_word_ci. }
  intros H. apply four_digits_sound in H as (-> & H & _).
  split; [done|]. by apply acc_or_r, acc_or_r.
Qed.

Lemma range_end_complete (e r : string) :
  accepts range_end_pattern e →
  Re.range_end (e +:+ r) = Some (e, r) ∧ stops is_space (e +:+ r) = true.
Proof.
  intros H. unfold Re.range_end.
  inversion H as [| | |? ? ? Hp|? ? ? Hcd| |]; subst.
  - apply (accepts_word_ci "present") in Hp.
    destruct (lit_ci_head _ _ _ Hp) as (c & y & -> & Hc).
    destruct (letter_p c Hc) as [_ Hs].
    rewrite (lit_ci_app _ _ r Hp).
    apply lit_ci_split in Hp as (m & Hm & _ & Hl). rewrite app_empty_r in Hm. subst m.
    change 7%nat with (String.length "present"). rewrite <- Hl, substring_prefix.
    split; [done|]. norm_app. simpl. by rewrite Hs.
  - inversion Hcd as [| | |? ? ? Hc|? ? ? Hd| |]; subst.
    + apply (accepts_word_ci "current") in Hc.
      destruct (lit_ci_head _ _ _ Hc) as (c & y & -> & Hcc).
      destruct (letter_c c Hcc) as (_ & Hs & Hnp).
      rewrite app_cons_s, (lit_ci_fails _ _ _ _ Hnp), <- app_cons_s.
      rewrite (lit_ci_app _ _ r Hc).
      apply lit_ci_split in Hc as (m & Hm & _ & Hl). rewrite app_empty_r in Hm. subst m.
      change 7%nat with (String.length "current"). rewrite <- Hl, substring_prefix.
      split; [done|]. norm_app. simpl. by rewrite Hs.
    + pose proof (four_digits_complete e r Hd) as Hfd.
      destruct (year4_shape e Hd) as (c1 & c2 & c3 & c4 & -> & H1 & _).
      destruct (digit_not_letter c1 H1) as (Hs & Hnp & Hnc).
      rewrite app_cons_s, (lit_ci_fails _ _ _ _ Hnp), (lit_ci_fails _ _ _ _ Hnc), <- app_cons_s.
      rewrite Hfd. split; [done|]. norm_app. simpl. by rewrite Hs.
Qed.

Lemma range_at_sound (s a e : string) (n : nat) :
  Re.range_at s = Some (a, e, n) → range_match s a e n.
Proof.
  unfold Re.range_at.
  destruct (Re.four_digits s) as [[a0 r1]|] eqn:E1; [|done].
  destruct (Re.span is_space r1) as [sp1 r2] eqn:E2.
  destruct (Re.dash r2) as [r3|] eqn:E3; [|done].
  destruct (Re.span is_space r3) as [sp2 r4] eqn:E4.
  destruct (Re.range_end r4) as [[e0 r5]|] eqn:E5; [|done].
  intros [= <- <- <-].
  apply four_digits_sound in E1 as (-> & Ha & _).
  apply span_sound in E2 as (-> & H2 & _).
  apply dash_sound in E3 as (d & -> & Hd).
  apply span_sound in E4 as (-> & H4 & _).
  apply range_end_sound in E5 as (-> & He).
  exists sp1, d, sp2, r5. split; [done|].
  split; [done|]. split; [by apply accepts_many_class|]. split; [done|].
  split; [by apply accepts_many_class|]. split; [done|].
  rewrite !app_length_s. lia.
Qed.

Lemma range_at_complete (s a e : string) (n : nat) :
  range_match s a e n → Re.range_at s = Some (a, e, n).
Proof.
  intros (sp1 & d & sp2 & rest & -> & Ha & H1 & Hd & H2 & He & ->).
  apply accepts_many_class in H1. apply accepts_many_class in H2.
  destruct (range_end_complete e rest He) as [Hend Hstop].
  unfold Re.range_at.
  rewrite (four_digits_complete a _ Ha).
  rewrite (span_complete is_space sp1) by (done || by apply dash_stops_space).
  rewrite (dash_complete d _ Hd).
  rewrite (span_complete is_space sp2) by done.
  rewrite Hend. do 2 f_equal. rewrite !app_length_s. lia.
Qed.

Theorem range_at_iff (s a e : string) (n : nat) :
  Re.range_at s = Some (a, e, n) ↔ range_match s a e n.
Proof. split; [apply range_at_sound | apply range_at_complete]. Qed.

(** *** Scanning: [findall] and [split] *)

Lemma findall_ranges_nil : Re.findall_ranges EmptyString = [].
Proof. reflexivity. Qed.

Lemma findall_ranges_skip (k : nat) (s : string) :
  Re.findall_ranges_from k s = Re.findall_ranges (drop_s k s).
Proof.
  revert s. induction k as [|k IH]; intros s; [done|].
  destruct s as [|c s]; [done|]. simpl. apply IH.
Qed.

Lemma range_at_length (s a e : string) (n : nat) :
  Re.range_at s = Some (a, e, n) → (4 ≤ n)%nat.
Proof.
  intros H. apply range_at_sound in H as (sp1 & d & sp2 & rest & _ & Ha & _ & _ & _ & _ & ->).
  destruct (year4_shape a Ha) as (c1 & c2 & c3 & c4 & -> & _).
  rewrite app_length_s. simpl. lia.
Qed.

(** [findall] takes the match at the head of the text when there is one
    and resumes right after it, and otherwise moves one character on. *)
Theorem findall_ranges_unfold (s : string) :
  Re.findall_ranges s =
  match Re.range_at s with
  | Some (a, e, n) => (a, e) :: Re.findall_ranges (drop_s n s)
  | None =>
      match s with
      | EmptyString => []
      | String _ s' => Re.findall_ranges s'
      end
  end.
Proof.
  unfold Re.findall_ranges at 1. destruct s as [|c s]; [done|].
  cbn [Re.findall_ranges_from].
  destruct (Re.range_at (String c s)) as [[[a e] n]|] eqn:E; [|done].
  pose proof (range_at_length _ _ _ _ E) as Hn. f_equal.
  rewrite findall_ranges_skip. destruct n as [|n]; [lia | done].
Qed.

Lemma rev_app_app (a b c : string) :
  String.rev_app (String.rev_app a b) c = String.rev_app b (a +:+ c).
Proof.
  revert b c. induction a as [|x a IH]; intros b c; simpl; [done|].
  by rewrite IH.
Qed.

Lemma rev_rev_app (a : string) : String.rev (String.rev_app a EmptyString) = a.
Proof. unfold String.rev. rewrite rev_app_app. simpl. apply app_empty_r. Qed.

Lemma split_go_word (cur a t : string) :
  all_in not_sep a = true →
  Re.split_go cur false (a +:+ t) = Re.split_go (String.rev_app a cur) false t.
Proof.
  revert cur. induction a as [|c a IH]; intros cur Ha; [done|].
  simpl in Ha. apply andb_true_iff in Ha as [Hc Ha].
  rewrite app_cons_s. simpl. unfold not_sep in Hc. apply negb_true_iff in Hc.
  rewrite Hc. by apply IH.
Qed.

Lemma split_go_run (seps b : string) :
  all_in Re.is_sep seps = true → stops Re.is_sep b = true →
  Re.split_go EmptyString true (seps +:+ b) = Re.split b.
Proof.
  intros Hs Hb. induction seps as [|c seps IH].
  - rewrite app_empty_l. destruct b as [|c b]; [done|].
    simpl in Hb. apply negb_true_iff in Hb. unfold Re.split. simpl. by rewrite Hb.
  - simpl in Hs. apply andb_true_iff in Hs as [Hc Hs].
    rewrite app_cons_s. simpl. rewrite Hc. by apply IH.
Qed.

(** A text without separators is one token. *)
Theorem split_word (a : string) : all_in not_sep a = true → Re.split a = [a].
Proof.
  intros Ha. unfold Re.split.
  rewrite <- (app_empty_r a) at 1. rewrite (split_go_word _ _ _ Ha). simpl.
  by rewrite rev_rev_app.
Qed.

(** A token, a maximal run of separators and the rest: the token,
    followed by the tokens of the rest. *)
Theorem split_run (a seps b : string) :
  all_in not_sep a = true →
  seps ≠ EmptyString → all_in Re.is_sep seps = true → stops Re.is_sep b = true →
  Re.split (a +:+ seps +:+ b) = a :: Re.split b.
Proof.
  intros Ha Hne Hs Hb. unfold Re.split at 1.
  rewrite (split_go_word _ _ _ Ha).
  destruct seps as [|c seps]; [done|].
  simpl in Hs. apply andb_true_iff in Hs as [Hc Hs].
  rewrite app_cons_s. simpl. rewrite Hc, rev_rev_app. f_equal.
  by apply split_go_run.
Qed.

(** *** Substrings and trimming *)

Lemma prefix_spec (a b : string) :
  String.prefix a b = true ↔ ∃ post, b = a +:+ post.
Proof.
  revert b. induction a as [|x a IH]; intros b.
  - split; [intros _; by exists b | by destruct b].
  - destruct b as [|y b]; [split; [done | by intros [? ?]]|].
    simpl. destruct (ascii_dec x y) as [->|Hne].
    + rewrite IH. split; intros [post E]; exists post.
      * by rewrite app_cons_s, E.
      * rewrite app_cons_s in E. by injection E.
    + split; [done|]. intros [post E]. rewrite app_cons_s in E. by injection E.
Qed.

(** [a in b] holds exactly when [b] is some text, then [a], then some
    text. *)
Theorem str_in_spec (a b : string) :
  str_in a b = true ↔ ∃ pre post, b = pre +:+ a +:+ post.
Proof.
  induction b as [|y b IH]; cbn [str_in]; rewrite orb_true_iff, prefix_spec.
  - split.
    + intros [[post E]|]; [|done]. by exists EmptyString, post.
    + intros (pre & post & E). left. destruct pre; [by exists post | done].
  - rewrite IH. split.
    + intros [[post E]|(pre & post & E)].
      * by exists EmptyString, post.
      * exists (String y pre), post. by rewrite app_cons_s, E.
    + intros (pre & post & E). destruct pre as [|x pre].
      * left. by exists post.
      * right. rewrite app_cons_s in E. injection E as _ E. by exists pre, post.
Qed.

Lemma lstrip_spec (s : string) :
  ∃ ws, s = ws +:+ lstrip s ∧ all_in is_space ws = true ∧ stops is_space (lstrip s) = true.
Proof.
  induction s as [|c s (ws & E & Hws & Hst)]; [by exists EmptyString|].
  simpl. destruct (is_space c) eqn:Ec.
  - exists (String c ws). rewrite app_cons_s, <- E. simpl. by rewrite Ec, Hws.
  - exists EmptyString. simpl. by rewrite Ec.
Qed.

Lemma rstrip_spec (s : string) :
  ∃ ws, s = rstrip s +:+ ws ∧ all_in is_space ws = true ∧
        ends_outside is_space (rstrip s) = true.
Proof.
  induction s as [|c s (ws & E & Hws & He)]; [by exists EmptyString|].
  cbn [rstrip]. destruct (rstrip s) as [|d t] eqn:Er.
  - rewrite app_empty_l in E. subst ws. destruct (is_space c) eqn:Ec.
    + exists (String c s). simpl. by rewrite Ec, Hws.
    + exists s. simpl. by rewrite Ec.
  - exists ws. rewrite app_cons_s, <- E. by split.
Qed.

Lemma rstrip_keeps_head (s : string) :
  stops is_space s = true → stops is_space (rstrip s) = true.
Proof.
  destruct s as [|c s]; [done|]. cbn [rstrip stops]. intros Hc.
  apply negb_true_iff in Hc.
  destruct (rstrip s); simpl; rewrite ?Hc; simpl; by rewrite ?Hc.
Qed.

(** [s.strip()] removes a run of white space at each end and leaves a
    text that neither starts nor ends with white space. *)
Theorem strip_spec (s : string) :
  ∃ l r, s = l +:+ strip s +:+ r ∧
         all_in is_space l = true ∧ all_in is_space r = true ∧
         stops is_space (strip s) = true ∧ ends_outside is_space (strip s) = true.
Proof.
  destruct (lstrip_spec s) as (l & El & Hl & Hst).
  destruct (rstrip_spec (lstrip s)) as (r & Er & Hr & Hend).
  exists l, r. unfold strip. rewrite <- Er, <- El.
  repeat split; try done. by apply rstrip_keeps_head.
Qed.

Lemma lower_char_idem (c : ascii) : lower_char (lower_char c) = lower_char c.
Proof. destruct c as [[] [] [] [] [] [] [] []]; reflexivity. Qed.

(** [s.lower()] keeps the length and leaves no upper-case letter. *)
Theorem lower_spec (s : string) :
  String.length (lower s) = String.length s ∧ all_in (λ c, negb (is_upper c)) (lower s) = true
  ∧ lower (lower s) = lower s.
Proof.
  induction s as [|c s (Hl & Hu & Hi)]; [done|]. simpl.
  rewrite Hl, Hu, Hi, lower_char_idem. repeat split; try done.
  rewrite andb_true_r. destruct c as [[] [] [] [] [] [] [] []]; reflexivity.
Qed.

(** ** Counting with sums and folds *)

Lemma foldl_add_shift (l : list Z) (a : Z) : foldl Z.add a l = (a + foldl Z.add 0 l)%Z.
Proof.
  revert a. induction l as [|x l IH]; intros a; simpl; [lia|].
  rewrite (IH (a + x)%Z), (IH (0 + x)%Z). lia.
Qed.

Lemma sum_cons (x : Z) (l : list Z) : Py.sum (x :: l) = (x + Py.sum l)%Z.
Proof. unfold Py.sum. simpl. rewrite foldl_add_shift. lia. Qed.

Lemma sum_app (l k : list Z) : Py.sum (l ++ k) = (Py.sum l + Py.sum k)%Z.
Proof.
  induction l as [|x l IH]; simpl; [done|]. rewrite !sum_cons, IH. lia.
Qed.

(** The generator [1 for x in l if p x] sums to the number of [x]
    satisfying [p]. *)
Lemma sum_ones {A} (p : A → bool) (l : list A) :
  Py.sum (flat_map (λ x, if p x then [1%Z] else []) l)
  = Z.of_nat (length (List.filter p l)).
Proof.
  induction l as [|x l IH]; simpl; [done|].
  rewrite sum_app, IH. destruct (p x); simpl; unfold Py.sum; simpl; lia.
Qed.

Lemma filter_map_pair {A B} (p : A → B → bool) (x : A) (k : list B) :
  List.filter (λ xy, p xy.1 xy.2) (map (λ y, (x, y)) k)
  = map (λ y, (x, y)) (List.filter (p x) k).
Proof.
  induction k as [|y k IH]; simpl; [done|].
  destruct (p x y); simpl; by rewrite IH.
Qed.

Lemma sum_ones_pairs {A B} (p : A → B → bool) (l : list A) (k : list B) :
  Py.sum (flat_map (λ x, flat_map (λ y, if p x y then [1%Z] else []) k) l)
  = Z.of_nat (count_pairs p l k).
Proof.
  unfold count_pairs. induction l as [|x l IH]; simpl; [done|].
  rewrite sum_app, IH, sum_ones, List.filter_app, length_app, filter_map_pair,
    length_map. lia.
Qed.

(** An element of both lists is paired with itself. *)
Lemma count_pairs_diag {A} `{EqDecision A} (p : A → A → bool) (l k : list A) :
  (∀ x, p x x = true) →
  (length (List.filter (λ x, bool_decide (x ∈ k)) l) ≤ count_pairs p l k)%nat.
Proof.
  intros Hp. unfold count_pairs. induction l as [|x l IH]; simpl; [lia|].
  rewrite List.filter_app, length_app, filter_map_pair, length_map.
  destruct (bool_decide (x ∈ k)) eqn:E; simpl; [|lia].
  apply bool_decide_eq_true in E.
  assert (1 ≤ length (List.filter (p x) k))%nat; [|lia].
  assert (Hin : In x (List.filter (p x) k)).
  { apply filter_In. split; [by apply list_elem_of_In | apply Hp]. }
  destruct (List.filter (p x) k); simpl in *; [done | lia].
Qed.

Lemma size_inter_le_filter (R J : gset string) :
  (size (R ∩ J) ≤ length (List.filter (λ x, bool_decide (x ∈ elements J)) (elements R)))%nat.
Proof.
  change (size (R ∩ J)) with (length (elements (R ∩ J))).
  apply submseteq_length, NoDup_submseteq; [apply NoDup_elements|].
  intros x Hx. apply elem_of_elements, elem_of_intersection in Hx as [HR HJ].
  apply list_elem_of_In, filter_In. split.
  - by apply list_elem_of_In, elem_of_elements.
  - by apply bool_decide_eq_true, elem_of_elements.
Qed.

(** Every exact match is also a containing pair, so the subtraction in
    [partial_matches] never goes below zero. *)
Lemma exact_le_pairs (R J : gset string) :
  (size (R ∩ J) ≤ count_pairs skill_pair (elements R) (elements J))%nat.
Proof.
  etrans; [apply size_inter_le_filter|].
  apply count_pairs_diag, skill_pair_refl.
Qed.

Lemma count_matches_eq (hit : string → string → bool) (R J : gset string) :
  count_matches hit R J
  = Z.of_nat (length (List.filter (λ r, existsb (hit r) (elements J)) (elements R))).
Proof.
  unfold count_matches.
  assert (G : ∀ l a, foldl (λ m r, if existsb (hit r) (elements J) then (m + 1)%Z else m) a l
                 = (a + Z.of_nat (length (List.filter (λ r, existsb (hit r) (elements J)) l)))%Z).
  { induction l as [|x l IH]; intros a; simpl; [lia|].
    rewrite IH. destruct (existsb (hit x) (elements J)); simpl; lia. }
  rewrite G. lia.
Qed.

Lemma count_matches_nonneg hit R J : (0 <= count_matches hit R J)%Z.
Proof. rewrite count_matches_eq. lia. Qed.

(** ** Bounds of the five sub-scores *)

Lemma skill_score_bounds (resume_skills required_skills : list string) :
  0 <= compute_skill_similarity resume_skills required_skills ∧
  compute_skill_similarity resume_skills required_skills <= 50.
Proof.
  unfold compute_skill_similarity.
  set (R := norm_set resume_skills). set (J := norm_set required_skills).
  destruct (decide (J = ∅)) as [|HJ]; [lra|].
  destruct (0 <? Z.of_nat (size J) * 5)%Z eqn:E; [|lra].
  apply Z.ltb_lt in E.
  apply capped_scaled_bounds; [|lra].
  apply ratio_nonneg; [|done].
  rewrite sum_ones_pairs. pose proof (exact_le_pairs R J). lia.
Qed.

Lemma experience_score_bounds (current_year : Z) (resume_experience : list string)
    (required_exp : Q) :
  0 <= compute_experience_score current_year resume_experience required_exp ∧
  compute_experience_score current_year resume_experience required_exp <= 30.
Proof.
  unfold compute_experience_score.
  set (total := foldl _ _ _).
  destruct (Qle_bool required_exp 0) eqn:Ereq;
    destruct (Py.ltb 0 total) eqn:Etot; try lra.
  apply ltb_spec in Etot.
  assert (Hreq : 0 < required_exp).
  { apply Qnot_le_lt. intros H. apply Qle_bool_iff in H. congruence. }
  apply capped_scaled_bounds; [|lra].
  apply Qle_shift_div_l; [done|]. lra.
Qed.

Lemma matched_score_bounds (hit : string → string → bool) (R J : gset string) (k : Z) (c : Q) :
  (0 < k)%Z → 0 <= c → J ≠ ∅ →
  let r := Py.min (ZQ (count_matches hit R J * k) / ZQ (Z.of_nat (size J) * k)) 1 * c in
  0 <= r ∧ r <= c.
Proof.
  intros Hk Hc HJ. apply capped_scaled_bounds; [|done].
  pose proof (size_pos_of_nonempty J HJ). pose proof (count_matches_nonneg hit R J).
  apply ratio_nonneg; nia.
Qed.

Lemma education_score_bounds (resume_edu required_edu : list string) :
  0 <= compute_education_similarity resume_edu required_edu ∧
  compute_education_similarity resume_edu required_edu <= 15.
Proof.
  unfold compute_education_similarity.
  destruct (decide (norm_set required_edu = ∅)) as [|HJ]; [lra|].
  destruct (0 <? _)%Z; [|lra].
  apply matched_score_bounds; [lia | lra | done].
Qed.

Lemma certification_score_bounds (resume_certs required_certs : list string) :
  0 <= compute_certification_similarity resume_certs required_certs ∧
  compute_certification_similarity resume_certs required_certs <= 5.
Proof.
  unfold compute_certification_similarity.
  destruct (decide (norm_set required_certs = ∅)) as [|HJ]; [lra|].
  destruct (0 <? _)%Z; [|lra].
  apply matched_score_bounds; [lia | lra | done].
Qed.

Lemma ats_keywords_bounds (resume_text job_text : string) :
  0 <= ats_keywords resume_text job_text ∧ ats_keywords resume_text job_text <= 10.
Proof.
  unfold ats_keywords.
  set (J := list_to_set (Re.split job_text) : gset string).
  destruct (decide (J ≠ ∅)) as [HJ|]; [|lra].
  apply capped_scaled_bounds; [|lra].
  pose proof (size_pos_of_nonempty J HJ).
  unfold NQ. apply ratio_nonneg; lia.
Qed.

Lemma ats_sections_bounds (a b c d : list string) :
  0 <= ats_sections a b c d ∧ ats_sections a b c d <= 8.
Proof.
  unfold ats_sections.
  destruct (nonempty a), (nonempty b), (nonempty c), (nonempty d); lra.
Qed.

Lemma len_nonneg (s : string) : (0 <= Py.len s)%Z.
Proof. induction s as [|c s IH]; simpl; [lia|]. destruct (is_continuation c); lia. Qed.

Lemma ats_length_bounds (resume_text : string) :
  0 <= ats_length resume_text ∧ ats_length resume_text <= 4.
Proof.
  unfold ats_length. split; [|apply min_le_r].
  apply min_glb; [|lra].
  apply Qle_shift_div_l; [lra|]. rewrite Qmult_0_l.
  unfold ZQ. change 0 with (inject_Z 0). rewrite <- Zle_Qle. apply len_nonneg.
Qed.

Lemma ats_uncapped_bounds (a b c d x y z : list string) :
  0 <= ats_uncapped a b c d x y z ∧ ats_uncapped a b c d x y z <= 22.
Proof.
  unfold ats_uncapped.
  set (rt := lower _). set (jt := lower _).
  pose proof (ats_keywords_bounds rt jt).
  pose proof (ats_sections_bounds a b c d).
  pose proof (ats_length_bounds rt). lra.
Qed.

(** ** Completeness of the dicts and totality of the ATS score *)

Lemma normalize_resume_lookup (r : Resume) (k : string) :
  normalize_resume r !! k =
  if bool_decide (k ∈ resume_keys) then Some (default [] (r !! k)) else None.
Proof.
  unfold normalize_resume.
  destruct (decide (k = "skills"%string)) as [->|]; [by simplify_map_eq|].
  destruct (decide (k = "experience"%string)) as [->|]; [by simplify_map_eq|].
  destruct (decide (k = "education"%string)) as [->|]; [by simplify_map_eq|].
  destruct (decide (k = "certifications"%string)) as [->|]; [by simplify_map_eq|].
  assert (Hn : k ∉ resume_keys).
  { unfold resume_keys. rewrite !not_elem_of_cons. repeat split; try done.
    apply not_elem_of_nil. }
  rewrite bool_decide_eq_false_2 by done.
  by simplify_map_eq.
Qed.

Lemma normalize_resume_complete (r : Resume) : resume_complete (normalize_resume r).
Proof.
  apply Forall_forall. intros k Hk.
  rewrite normalize_resume_lookup, bool_decide_eq_true_2 by done. eauto.
Qed.

Lemma compute_ats_score_Some (r : Resume) (j : JobData) :
  resume_complete r → job_complete j →
  compute_ats_score r j =
  Some (Py.min (ats_uncapped (field r "skills") (field r "experience")
                  (field r "education") (field r "certifications")
                  (default [] (required_skills j)) (default [] (required_education j))
                  (default [] (required_certifications j))) 20).
Proof.
  intros Hr (Hs & He & Hc). unfold compute_ats_score, field.
  unfold resume_complete in Hr. rewrite Forall_forall in Hr.
  destruct (Hr "skills"%string) as [a ->]; [set_solver|].
  destruct (Hr "experience"%string) as [b ->]; [set_solver|].
  destruct (Hr "education"%string) as [c ->]; [set_solver|].
  destruct (Hr "certifications"%string) as [d ->]; [set_solver|].
  destruct Hs as [x ->], He as [y ->], Hc as [z ->]. done.
Qed.

Lemma compute_ats_score_bounds (r : Resume) (j : JobData) (q : Q) :
  compute_ats_score r j = Some q → 0 <= q ∧ q <= 20.
Proof.
  unfold compute_ats_score. intros H.
  repeat (match type of H with
          | (?o ≫= _) = Some _ => destruct o; simpl in H; [|done]
          end).
  injection H as <-.
  match goal with |- context [Py.min ?u 20] => set (x := u) end.
  assert (0 <= x ∧ x <= 22) as [? ?] by apply ats_uncapped_bounds.
  split; [apply min_glb; lra | apply min_le_r].
Qed.

(** ** Rounding to one decimal *)

(** Linear arithmetic over [Q] with integer injections as atoms. *)
Ltac hide_inject :=
  repeat match goal with
         | |- context [inject_Z ?z] =>
             let x := fresh "x" in set (x := inject_Z z) in *; clearbody x
         | _ : context [inject_Z ?z] |- _ =>
             let x := fresh "x" in set (x := inject_Z z) in *; clearbody x
         end.

Ltac const_inv :=
  repeat match goal with
         | |- context [Qinv (?n # ?d)] =>
             let v := eval vm_compute in (Qinv (n # d)) in
             change (Qinv (n # d)) with v
         | H : context [Qinv (?n # ?d)] |- _ =>
             let v := eval vm_compute in (Qinv (n # d)) in
             change (Qinv (n # d)) with v in H
         end.

Ltac qlra := hide_inject; unfold Qdiv in *; const_inv; lra.

Lemma round_half_even_bounds (q : Q) :
  (Qfloor q <= round_half_even q <= Qfloor q + 1)%Z.
Proof.
  unfold round_half_even.
  destruct (Qcompare _ _); [destruct (Z.even _)|..]; lia.
Qed.

Lemma round_half_even_int (z : Z) : round_half_even (inject_Z z) = z.
Proof.
  unfold round_half_even. rewrite Qfloor_Z.
  assert (E : Qcompare (inject_Z z - inject_Z z) (1 # 2) = Lt).
  { rewrite <- Qlt_alt. lra. }
  by rewrite E.
Qed.

Lemma round_half_even_comp (p q : Q) : p == q → round_half_even p = round_half_even q.
Proof.
  intros E. unfold round_half_even. rewrite (Qfloor_comp _ _ E).
  assert (E' : p - inject_Z (Qfloor q) == q - inject_Z (Qfloor q)) by lra.
  by rewrite (Qcompare_comp _ _ E' (1 # 2) (1 # 2) (Qeq_refl _)).
Qed.

Lemma round_half_even_mono (p q : Q) : p <= q → (round_half_even p <= round_half_even q)%Z.
Proof.
  intros Hpq. pose proof (Qfloor_resp_le _ _ Hpq) as Hf.
  pose proof (round_half_even_bounds p). pose proof (round_half_even_bounds q).
  destruct (decide (Qfloor p = Qfloor q)) as [E|]; [|lia].
  unfold round_half_even. rewrite E.
  destruct (Qcompare (p - _) _) eqn:Cp; destruct (Qcompare (q - _) _) eqn:Cq;
    try (destruct (Z.even (Qfloor q)); lia); exfalso.
  - rewrite <- Qeq_alt in Cp. rewrite <- Qlt_alt in Cq. lra.
  - rewrite <- Qgt_alt in Cp. rewrite <- Qeq_alt in Cq. lra.
  - rewrite <- Qgt_alt in Cp. rewrite <- Qlt_alt in Cq. lra.
Qed.

Lemma round1_comp (p q : Q) : p == q → round1 p == round1 q.
Proof.
  intros E. unfold round1.
  rewrite (round_half_even_comp (p * 10) (q * 10)) by lra. reflexivity.
Qed.

Lemma round1_mono (p q : Q) : p <= q → round1 p <= round1 q.
Proof.
  intros H. unfold round1.
  assert (Hm : (round_half_even (p * 10) <= round_half_even (q * 10))%Z)
    by (apply round_half_even_mono; lra).
  rewrite Zle_Qle in Hm. qlra.
Qed.

Lemma round1_tenths (z : Z) : round1 (inject_Z z / 10) == inject_Z z / 10.
Proof.
  unfold round1.
  rewrite (round_half_even_comp (inject_Z z / 10 * 10) (inject_Z z)) by (field; lra).
  rewrite round_half_even_int. reflexivity.
Qed.

(** Rounding keeps a value inside an interval whose ends are integers. *)
Lemma round1_between (a b : Z) (q : Q) :
  inject_Z a <= q → q <= inject_Z b →
  inject_Z a <= round1 q ∧ round1 q <= inject_Z b.
Proof.
  intros Ha Hb.
  assert (Ea : round1 (inject_Z a) == inject_Z a).
  { rewrite (round1_comp _ (inject_Z (a * 10) / 10)), round1_tenths;
      rewrite inject_Z_mult; field. }
  assert (Eb : round1 (inject_Z b) == inject_Z b).
  { rewrite (round1_comp _ (inject_Z (b * 10) / 10)), round1_tenths;
      rewrite inject_Z_mult; field. }
  pose proof (round1_mono _ _ Ha). pose proof (round1_mono _ _ Hb). lra.
Qed.

(** ** The stable descending sort *)

Lemma insert_desc_perm (c : Candidate) (l : list Candidate) :
  insert_desc c l ≡ₚ c :: l.
Proof.
  induction l as [|d l IH]; simpl; [done|].
  destruct (Py.ltb (score c) (score d)); [|done].
  rewrite IH. apply Permutation_swap.
Qed.

Lemma sort_desc_perm (l : list Candidate) : sort_desc l ≡ₚ l.
Proof.
  induction l as [|c l IH]; simpl; [done|].
  rewrite insert_desc_perm. by f_equiv.
Qed.

Lemma insert_desc_Forall (P : Candidate → Prop) c l :
  P c → Forall P l → Forall P (insert_desc c l).
Proof.
  intros Hc Hl. rewrite insert_desc_perm. by constructor.
Qed.

Lemma insert_desc_sorted (c : Candidate) (l : list Candidate) :
  StronglySorted desc l → StronglySorted desc (insert_desc c l).
Proof.
  induction 1 as [|d l Hs IH Hd]; simpl.
  - repeat constructor.
  - destruct (Py.ltb (score c) (score d)) eqn:E.
    + constructor; [done|]. apply insert_desc_Forall; [|done].
      apply ltb_spec in E. unfold desc. lra.
    + apply ltb_false in E. constructor; [by constructor|].
      constructor; [done|].
      eapply Forall_impl; [exact Hd|]. unfold desc. intros x Hx. simpl in Hx. lra.
Qed.

Lemma sort_desc_sorted (l : list Candidate) : StronglySorted desc (sort_desc l).
Proof.
  induction l as [|c l IH]; simpl; [constructor | by apply insert_desc_sorted].
Qed.

(** Stability: the candidates of any one score keep their input order. *)
Lemma insert_desc_stable (v : Q) (c : Candidate) (l : list Candidate) :
  List.filter (score_is v) (insert_desc c l) = List.filter (score_is v) (c :: l).
Proof.
  induction l as [|d l IH]; [done|].
  cbn [insert_desc]. destruct (Py.ltb (score c) (score d)) eqn:E; [|done].
  apply ltb_spec in E.
  cbn [List.filter] in *. rewrite IH.
  destruct (score_is v c) eqn:Ec; [|done].
  assert (score_is v d = false) as ->; [|done].
  unfold score_is in *. apply Qeq_bool_iff in Ec.
  destruct (Qeq_bool (score d) v) eqn:Ed; [|done].
  apply Qeq_bool_iff in Ed. lra.
Qed.

Lemma sort_desc_stable (v : Q) (l : list Candidate) :
  List.filter (score_is v) (sort_desc l) = List.filter (score_is v) l.
Proof.
  induction l as [|c l IH]; [done|].
  cbn [sort_desc foldr]. fold (sort_desc l).
  rewrite insert_desc_stable. cbn [List.filter]. by rewrite IH.
Qed.

(** A list sorted by descending score is determined by its
    subsequences of equal score: any stable sort gives the result of
    [sort_desc]. *)
Lemma stable_sorted_unique (l1 l2 : list Candidate) :
  StronglySorted desc l1 → StronglySorted desc l2 →
  (∀ v, List.filter (score_is v) l1 = List.filter (score_is v) l2) →
  l1 = l2.
Proof.
  intros H1. revert l2. induction H1 as [|x l1 Hs1 IH Hx]; intros l2 H2 Hf.
  - destruct l2 as [|y l2]; [done|].
    specialize (Hf (score y)). cbn in Hf. unfold score_is in Hf.
    rewrite (proj2 (Qeq_bool_iff _ _) (Qeq_refl _)) in Hf. done.
  - destruct H2 as [|y l2 Hs2 Hy].
    { specialize (Hf (score x)). cbn in Hf. unfold score_is in Hf.
      rewrite (proj2 (Qeq_bool_iff _ _) (Qeq_refl _)) in Hf. done. }
    assert (Hself : ∀ c, score_is (score c) c = true)
      by (intros c; apply Qeq_bool_iff; reflexivity).
    assert (Hxy : score y <= score x).
    { pose proof (Hf (score y)) as Hv. cbn [List.filter] in Hv.
      rewrite (Hself y) in Hv.
      assert (Hin : In y (List.filter (score_is (score y)) (x :: l1))).
      { cbn [List.filter]. rewrite Hv. by left. }
      apply filter_In in Hin as [[->|Hin] _]; [lra|].
      rewrite Forall_forall in Hx. apply list_elem_of_In, Hx in Hin. exact Hin. }
    assert (Hyx : score x <= score y).
    { pose proof (Hf (score x)) as Hv. cbn [List.filter] in Hv.
      rewrite (Hself x) in Hv.
      assert (Hin : In x (List.filter (score_is (score x)) (y :: l2))).
      { cbn [List.filter]. rewrite <- Hv. by left. }
      apply filter_In in Hin as [[->|Hin] _]; [lra|].
      rewrite Forall_forall in Hy. apply list_elem_of_In, Hy in Hin. exact Hin. }
    assert (Exy : score_is (score x) y = true) by (apply Qeq_bool_iff; lra).
    pose proof (Hf (score x)) as Hv. cbn [List.filter] in Hv.
    rewrite (Hself x), Exy in Hv. injection Hv as -> Hv.
    f_equal. apply IH; [done|]. intros v.
    specialize (Hf v). cbn [List.filter] in Hf.
    destruct (score_is v y); congruence.
Qed.

(** Whatever stable sort the runtime uses, its result on [l] is
    [sort_desc l]. *)
Lemma sort_desc_unique (l l' : list Candidate) :
  StronglySorted desc l' →
  (∀ v, List.filter (score_is v) l' = List.filter (score_is v) l) →
  l' = sort_desc l.
Proof.
  intros Hs Hf. apply stable_sorted_unique; [done | apply sort_desc_sorted |].
  intros v. by rewrite sort_desc_stable.
Qed.

(** ** Rank assignment *)

Lemma assign_ranks_lookup (l : list Candidate) (i : nat) :
  assign_ranks l !! i = set_rank (1 + Z.of_nat i) <$> l !! i.
Proof. unfold assign_ranks. by rewrite list_lookup_imap. Qed.

Lemma assign_ranks_length (l : list Candidate) : length (assign_ranks l) = length l.
Proof. apply length_imap. Qed.

(** ** The scoring loop and the ranked output *)

Lemma score_resume_spec (current_year : Z) (job_data : JobData) (r : Resume) (c : Candidate) :
  score_resume current_year job_data r = Some c →
  ∃ t a, total_score current_year (normalize_resume r) job_data = Some t ∧
         compute_ats_score (normalize_resume r) job_data = Some a ∧
         score c = round1 t ∧ ats_score c = round1 a ∧
         resume c = normalize_resume r ∧ rank c = None.
Proof.
  unfold score_resume, total_score. intros H.
  destruct (compute_ats_score (normalize_resume r) job_data) as [a|]; [|done].
  simpl in H. injection H as <-. eexists _, a. simpl. done.
Qed.

Lemma score_resume_total (current_year : Z) (job_data : JobData) (r : Resume) :
  job_complete job_data → is_Some (score_resume current_year job_data r).
Proof.
  intros Hj. unfold score_resume.
  rewrite (compute_ats_score_Some _ _ (normalize_resume_complete r) Hj). simpl. eauto.
Qed.

Lemma score_resume_KeyError (current_year : Z) (job_data : JobData) (r : Resume) :
  ¬ job_complete job_data → score_resume current_year job_data r = None.
Proof.
  intros Hj. unfold score_resume, compute_ats_score.
  rewrite !normalize_resume_lookup. simpl.
  simpl. unfold job_complete in Hj.
  destruct (required_skills job_data); simpl; [|done].
  destruct (required_education job_data); simpl; [|done].
  destruct (required_certifications job_data); simpl; [|done].
  exfalso. apply Hj. eauto.
Qed.

Lemma scoring_loop_total (current_year : Z) (job_data : JobData) (rs : list Resume) :
  job_complete job_data →
  ∃ cands, mapM (score_resume current_year job_data) rs = Some cands.
Proof.
  intros Hj. apply (mapM_is_Some_2 (score_resume current_year job_data)).
  apply Forall_forall. intros r _. by apply score_resume_total.
Qed.

Lemma scoring_loop_spec (current_year : Z) (job_data : JobData) (rs : list Resume)
    (cands : list Candidate) :
  mapM (score_resume current_year job_data) rs = Some cands →
  Forall2 (λ r c, score_resume current_year job_data r = Some c) rs cands.
Proof. apply mapM_Some_1. Qed.

Lemma unrank_set_rank (z : Z) (c : Candidate) : rank c = None → unrank (set_rank z c) = c.
Proof. destruct c as [s a r k]. simpl. intros ->. done. Qed.

Lemma unrank_assign_ranks (l : list Candidate) :
  Forall (λ c, rank c = None) l → unrank <$> assign_ranks l = l.
Proof.
  intros H. unfold assign_ranks. rewrite fmap_imap.
  apply list_eq. intros i. rewrite list_lookup_imap.
  destruct (l !! i) as [c|] eqn:E; [|done]. simpl. f_equal.
  apply unrank_set_rank. eapply Forall_lookup_1 in H; eauto.
Qed.

Lemma assign_ranks_sorted (l : list Candidate) :
  StronglySorted desc l → StronglySorted desc (assign_ranks l).
Proof.
  unfold assign_ranks.
  assert (G : ∀ (f : nat → Candidate → Candidate) l,
             (∀ i c, score (f i c) = score c) →
             StronglySorted desc l → StronglySorted desc (imap f l)).
  { clear l. intros f l. revert f. induction l as [|c l IH]; intros f Hf Hs; simpl.
    - constructor.
    - apply StronglySorted_inv in Hs as [Hs Hc]. constructor.
      + apply IH; [intros; apply Hf | done].
      + rewrite Forall_forall in Hc |- *. intros d Hd.
        apply elem_of_lookup_imap in Hd as (i & d' & -> & Hd').
        unfold desc, compose. rewrite !Hf. apply Hc. eapply list_elem_of_lookup_2. exact Hd'. }
  apply G. done.
Qed.

Lemma rank_candidates_spec (current_year : Z) (rs : list Resume) (job_data : JobData)
    (out : list Candidate) :
  rank_candidates current_year rs job_data = Some out →
  ∃ cands, mapM (score_resume current_year job_data) rs = Some cands ∧
           out = assign_ranks (sort_desc cands).
Proof.
  unfold rank_candidates. intros H.
  destruct (mapM _ rs) as [cands|]; [|done]. simpl in H. injection H as <-. eauto.
Qed.

Lemma rank_candidates_total (current_year : Z) (rs : list Resume) (job_data : JobData) :
  job_complete job_data → is_Some (rank_candidates current_year rs job_data).
Proof.
  intros Hj. unfold rank_candidates.
  destruct (scoring_loop_total current_year job_data rs Hj) as [cands ->]. simpl. eauto.
Qed.

Lemma scored_unranked (current_year : Z) (job_data : JobData) (rs : list Resume)
    (cands : list Candidate) :
  mapM (score_resume current_year job_data) rs = Some cands →
  Forall (λ c, rank c = None) cands.
Proof.
  intros H. apply scoring_loop_spec in H.
  induction H as [|r c rs cands Hc _ IH]; constructor; [|done].
  apply score_resume_spec in Hc as (t & a & _ & _ & _ & _ & _ & Hr). exact Hr.
Qed.

(** A job dict that lacks a requirement list makes the first iteration
    raise, so the call fails on every non-empty batch. *)
Lemma rank_candidates_KeyError (current_year : Z) (r : Resume) (rs : list Resume)
    (job_data : JobData) :
  ¬ job_complete job_data → rank_candidates current_year (r :: rs) job_data = None.
Proof.
  intros Hj. unfold rank_candidates.
  assert (E : mapM (score_resume current_year job_data) (r :: rs) = None).
  { apply mapM_None_2. constructor. by apply score_resume_KeyError. }
  by rewrite E.
Qed.

Lemma rank_candidates_nil (current_year : Z) (job_data : JobData) :
  rank_candidates current_year [] job_data = Some [].
Proof. done. Qed.

(** ** Set-level reading of the matching loops *)

Lemma bfilter_filter {A} (f : A → bool) (l : list A) :
  List.filter f l = filter (λ x, f x = true) l.
Proof.
  induction l as [|x l IH]; [done|]. simpl. rewrite filter_cons, IH.
  destruct (f x); simpl; by rewrite ?decide_True, ?decide_False by done.
Qed.

(** The loop counts the resume entries that satisfy some requirement. *)
Lemma count_matches_size (hit : string → string → bool) (P : string → string → Prop)
    `{∀ r j, Decision (P r j)} (R J : gset string) :
  (∀ r j, hit r j = true ↔ P r j) →
  count_matches hit R J = Z.of_nat (size (filter (λ r, set_Exists (P r) J) R)).
Proof.
  intros HP. rewrite count_matches_eq. f_equal.
  change (size ?X) with (length (elements X)).
  apply Permutation_length, NoDup_Permutation.
  - rewrite bfilter_filter. apply NoDup_filter, NoDup_elements.
  - apply NoDup_elements.
  - intros r. rewrite bfilter_filter, list_elem_of_filter, !elem_of_elements, elem_of_filter.
    rewrite existsb_exists. unfold set_Exists.
    split; intros [(j & Hj & Hh) Hr]; (split; [|done]); exists j.
    + split; [by apply elem_of_elements, list_elem_of_In | by apply HP].
    + split; [by apply list_elem_of_In, elem_of_elements | by apply HP].
Qed.

Lemma edu_covers_spec (r j : string) : edu_covers r j = true ↔ covers r j.
Proof.
  unfold edu_covers, covers. rewrite andb_true_iff, Z.leb_le, Z.ltb_lt. done.
Qed.

Lemma cert_hit_spec (r j : string) : cert_hit r j = true ↔ cert_match r j.
Proof.
  unfold cert_hit, cert_match.
  rewrite !orb_true_iff, existsb_exists, Exists_exists.
  setoid_rewrite list_elem_of_In. tauto.
Qed.

Example degree_level_ex :
  map degree_level ["bachelor of science"; "mba"; "phd"; "high school"; "diploma, ms"]%string
  = [2; 3; 4; 0; 3]%Z.
Proof. reflexivity. Qed.

(** * The skill score *)


(** * The education score *)

Example education_two_entries_one_requirement :
  compute_education_similarity ["phd"; "master"]%string ["bachelor"; "high school"]%string
    == 15 ∧
  education_score_by_requirement ["phd"; "master"]%string ["bachelor"; "high school"]%string
    == 15 # 2.
Proof. split; by vm_compute. Qed.

(** C2, as stated, fails: with resume entries phd and master against the
    requirements bachelor and high school, one requirement is covered
    (7.5 by the stated formula) but both resume entries count (15). *)
Lemma C2_counterexample :
  ¬ (∀ resume_edu required_edu : list string,
       norm_set required_edu ≠ ∅ →
       compute_education_similarity resume_edu required_edu ==
       education_score_by_requirement resume_edu required_edu).
Proof.
  intros H.
  specialize (H ["phd"; "master"]%string ["bachelor"; "high school"]%string).
  assert (Hne : norm_set ["bachelor"; "high school"]%string ≠ ∅) by (by vm_compute).
  specialize (H Hne). vm_compute in H. discriminate H.
Qed.

(** C2, amended. The education score is
    [min(matches*10 / (|required|*10), 1) * 15], where [matches] counts
    the distinct normalized resume entries that cover at least one
    requirement entry (level at least the requirement's, which is above
    0) and [|required|] the distinct normalized requirement entries; it is
    0 when no education is required. *)
Theorem C2_education_score (resume_edu required_edu : list string) :
  let R := norm_set resume_edu in
  let J := norm_set required_edu in
  let matches := Z.of_nat (size (filter (λ r, set_Exists (covers r) J) R)) in
  compute_education_similarity resume_edu required_edu ==
  if decide (J = ∅) then 0
  else Py.min (ZQ (matches * 10) / ZQ (Z.of_nat (size J) * 10)) 1 * 15.
Proof.
  intros R J matches. unfold compute_education_similarity. fold R J.
  destruct (decide (J = ∅)) as [|HJ]; [reflexivity|].
  pose proof (size_pos_of_nonempty J HJ) as Hpos.
  destruct (0 <? Z.of_nat (size J) * 10)%Z eqn:E; [|apply Z.ltb_ge in E; lia].
  rewrite (count_matches_size edu_covers covers R J edu_covers_spec). reflexivity.
Qed.

(** * The certification score *)

Example certification_two_entries_one_requirement :
  compute_certification_similarity ["aws cloud"; "aws"]%string ["aws"; "pmp"]%string == 5 ∧
  certification_score_by_requirement ["aws cloud"; "aws"]%string ["aws"; "pmp"]%string
    == 5 # 2.
Proof. split; by vm_compute. Qed.

(** C3, as stated, fails: with resume entries aws cloud and aws against
    the requirements aws and pmp, one requirement is matched (2.5 by the
    stated formula) but both resume entries count (5). *)
Lemma C3_counterexample :
  ¬ (∀ resume_certs required_certs : list string,
       norm_set required_certs ≠ ∅ →
       compute_certification_similarity resume_certs required_certs ==
       certification_score_by_requirement resume_certs required_certs).
Proof.
  intros H.
  specialize (H ["aws cloud"; "aws"]%string ["aws"; "pmp"]%string).
  assert (Hne : norm_set ["aws"; "pmp"]%string ≠ ∅) by (by vm_compute).
  specialize (H Hne). vm_compute in H. discriminate H.
Qed.

(** C3, amended. The certification score is
    [min(matches*5 / (|required|*5), 1) * 5], where [matches] counts the
    distinct normalized resume entries that match at least one required
    certification: containment in either direction after lower-casing,
    or the resume entry containing one of the generic keywords, which
    matches any requirement; it is 0 when no certification is required. *)
Theorem C3_certification_score (resume_certs required_certs : list string) :
  let R := norm_set resume_certs in
  let J := norm_set required_certs in
  let matches := Z.of_nat (size (filter (λ r, set_Exists (cert_match r) J) R)) in
  compute_certification_similarity resume_certs required_certs ==
  if decide (J = ∅) then 0
  else Py.min (ZQ (matches * 5) / ZQ (Z.of_nat (size J) * 5)) 1 * 5.
Proof.
  intros R J matches. unfold compute_certification_similarity. fold R J.
  destruct (decide (J = ∅)) as [|HJ]; [reflexivity|].
  pose proof (size_pos_of_nonempty J HJ) as Hpos.
  destruct (0 <? Z.of_nat (size J) * 5)%Z eqn:E; [|apply Z.ltb_ge in E; lia].
  rewrite (count_matches_size cert_hit cert_match R J cert_hit_spec). reflexivity.
Qed.

(** * Bounds of the sub-scores *)



(** * The keyword part of the ATS score *)

Lemma split_go_nonempty (cur : string) (b : bool) (s : string) : Re.split_go cur b s ≠ [].
Proof.
  revert cur b. induction s as [|c s IH]; intros cur b; simpl; [done|].
  destruct (Re.is_sep c); [destruct b|]; [apply IH | done | apply IH].
Qed.

(** The tokenizer never returns an empty list, so a set of tokens is
    never empty: the test [if job_keywords] always takes its first
    branch. *)
Lemma tokens_nonempty (text : string) : (list_to_set (Re.split text) : gset string) ≠ ∅.
Proof.
  unfold Re.split. pose proof (split_go_nonempty EmptyString false text) as H.
  destruct (Re.split_go EmptyString false text) as [|t ts]; [done|].
  simpl. intros E. assert (Ht : t ∈ ({[t]} ∪ list_to_set ts : gset string)).
  { apply elem_of_union_l, elem_of_singleton. reflexivity. }
  rewrite E in Ht. by apply not_elem_of_empty in Ht.
Qed.

(** C4 at the empty job. The keyword part is
    [min(|resume ∩ job| / |job|, 1) * 10] over the token sets, for every
    pair of texts; but with the three requirement lists empty the job
    text splits into the single empty token, which the empty resume text
    shares: the keyword part is 10, not 0, and so is the ATS score of
    the empty resume. *)
Theorem C4_keyword_part_on_empty_job :
  (∀ resume_text job_text,
     let job_tokens : gset string := list_to_set (Re.split job_text) in
     let resume_tokens : gset string := list_to_set (Re.split resume_text) in
     ats_keywords resume_text job_text ==
     Py.min (NQ (size (resume_tokens ∩ job_tokens)) / NQ (size job_tokens)) 1 * 10) ∧
  ats_keywords (lower (join " " ([] ++ [] ++ [] ++ [])))
               (lower (join " " ([] ++ [] ++ []))) == 10 ∧
  ∃ q, compute_ats_score (normalize_resume ∅) empty_job = Some q ∧ q == 10.
Proof.
  split; [|split; [by vm_compute | by eexists; split; [vm_compute; reflexivity|]]].
  intros resume_text job_text job_tokens resume_tokens. unfold ats_keywords.
  fold job_tokens resume_tokens.
  destruct (decide (job_tokens ≠ ∅)) as [_|H]; [|by destruct H; apply tokens_nonempty].
  assert (E : job_tokens ∩ resume_tokens = resume_tokens ∩ job_tokens)
    by apply leibniz_equiv, intersection_comm.
  rewrite E. reflexivity.
Qed.

(** * The experience score *)






(** * Ranking *)

Lemma ranked_Forall (P : Candidate → Prop) (cands : list Candidate) :
  (∀ z c, P c → P (set_rank z c)) →
  Forall P cands → Forall P (assign_ranks (sort_desc cands)).
Proof.
  intros Hset Hc. apply Forall_forall. intros d Hd.
  apply elem_of_lookup_imap in Hd as (i & c & -> & Hi).
  apply Hset. rewrite <- (sort_desc_perm cands) in Hc.
  eapply Forall_lookup_1; eauto.
Qed.

Lemma ranks_seqZ (l : list Candidate) :
  rank <$> assign_ranks l = Some <$> seqZ 1 (Z.of_nat (length l)).
Proof.
  apply list_eq. intros i.
  rewrite !list_lookup_fmap, assign_ranks_lookup.
  destruct (l !! i) as [c|] eqn:E; simpl.
  - apply lookup_lt_Some in E.
    rewrite (lookup_seqZ_lt 1 (Z.of_nat (length l)) i) by lia. done.
  - apply lookup_ge_None in E. rewrite lookup_seqZ_ge by lia. done.
Qed.

Lemma sort_desc_pair (a b : Candidate) :
  score a == score b → sort_desc [a; b] = [a; b].
Proof.
  intros E. simpl. assert (Py.ltb (score a) (score b) = false) as ->; [|done].
  apply ltb_false. lra.
Qed.

(** With the three requirement lists present the call returns: the
    scoring loop yields one candidate per resume, and the result is the
    ranked stable sort of these. *)
Lemma ranking_structure (current_year : Z) (rs : list Resume) (job_data : JobData) :
  job_complete job_data →
  ∃ cands,
    mapM (score_resume current_year job_data) rs = Some cands ∧
    rank_candidates current_year rs job_data = Some (assign_ranks (sort_desc cands)) ∧
    unrank <$> assign_ranks (sort_desc cands) = sort_desc cands ∧
    length cands = length rs.
Proof.
  intros Hj.
  destruct (scoring_loop_total current_year job_data rs Hj) as [cands Hc].
  exists cands. split; [done|].
  split; [unfold rank_candidates; by rewrite Hc|]. split.
  - apply unrank_assign_ranks. rewrite sort_desc_perm. by eapply scored_unranked.
  - symmetry. by eapply length_mapM.
Qed.

(** C7. With the requirement lists present, [rank_candidates] returns
    the [N] scored candidates sorted by descending score, candidates of
    equal score in input order, with ranks exactly 1..N; two candidates
    of identical score come out in input order with ranks 1 and 2. *)
Theorem C7_stable_descending_ranking (current_year : Z) (rs : list Resume)
    (job_data : JobData) :
  job_complete job_data →
  ∃ cands out,
    mapM (score_resume current_year job_data) rs = Some cands ∧
    rank_candidates current_year rs job_data = Some out ∧
    length out = length rs ∧
    unrank <$> out ≡ₚ cands ∧
    StronglySorted desc out ∧
    (∀ v, List.filter (score_is v) (unrank <$> out) = List.filter (score_is v) cands) ∧
    rank <$> out = Some <$> seqZ 1 (Z.of_nat (length rs)) ∧
    (∀ a b, cands = [a; b] → score a == score b →
            out = [set_rank 1 a; set_rank 2 b]).
Proof.
  intros Hj.
  destruct (ranking_structure current_year rs job_data Hj) as (cands & Hc & Hout & Hu & Hlen).
  exists cands, (assign_ranks (sort_desc cands)).
  split; [done|]. split; [done|].
  split. { rewrite assign_ranks_length, (Permutation_length (sort_desc_perm cands)). done. }
  split. { rewrite Hu. apply sort_desc_perm. }
  split. { apply assign_ranks_sorted, sort_desc_sorted. }
  split. { intros v. rewrite Hu. apply sort_desc_stable. }
  split. { rewrite ranks_seqZ, (Permutation_length (sort_desc_perm cands)), Hlen. done. }
  intros a b -> E. by rewrite sort_desc_pair.
Qed.

(** The ranking of two equal resumes against the empty job. *)
Lemma C7_stable_descending_ranking_witness :
  ∃ cands out,
    mapM (score_resume 2024 empty_job) [short_resume; short_resume] = Some cands ∧
    rank_candidates 2024 [short_resume; short_resume] empty_job = Some out ∧
    length out = 2%nat ∧
    unrank <$> out ≡ₚ cands ∧
    StronglySorted desc out ∧
    (∀ v, List.filter (score_is v) (unrank <$> out) = List.filter (score_is v) cands) ∧
    rank <$> out = Some <$> seqZ 1 2 ∧
    (∀ a b, cands = [a; b] → score a == score b →
            out = [set_rank 1 a; set_rank 2 b]).
Proof.
  apply (C7_stable_descending_ranking 2024 [short_resume; short_resume] empty_job).
  repeat split; by eexists.
Defined.

(** * The resume carried by a candidate *)

Lemma normalize_resume_dom (r : Resume) :
  dom (normalize_resume r) = list_to_set resume_keys.
Proof.
  apply set_eq. intros k. rewrite elem_of_dom, elem_of_list_to_set, normalize_resume_lookup.
  destruct (bool_decide (k ∈ resume_keys)) eqn:E.
  - apply bool_decide_eq_true in E. split; [done | eauto].
  - apply bool_decide_eq_false in E. split; [by intros [? ?] | done].
Qed.

Lemma scored_resumes (current_year : Z) (job_data : JobData) (rs : list Resume)
    (cands : list Candidate) :
  mapM (score_resume current_year job_data) rs = Some cands →
  resume <$> cands = normalize_resume <$> rs.
Proof.
  intros H. apply scoring_loop_spec in H.
  induction H as [|r c rs cands Hc _ IH]; [done|].
  apply score_resume_spec in Hc as (t & a & _ & _ & _ & _ & Hr & _).
  rewrite !fmap_cons. by rewrite Hr, IH.
Qed.

Lemma resume_unrank (l : list Candidate) : resume <$> (unrank <$> l) = resume <$> l.
Proof. rewrite <- list_fmap_compose. done. Qed.

(** C10. The resume of every output candidate is the normalisation of
    its input resume: it has exactly the keys skills, experience,
    education and certifications, each holding the input's value or the
    empty list when the input lacks the key, and no other key of the
    input (an email, say) survives. *)
Theorem C10_resume_fields (current_year : Z) (rs : list Resume) (job_data : JobData) :
  job_complete job_data →
  ∃ out,
    rank_candidates current_year rs job_data = Some out ∧
    resume <$> out ≡ₚ normalize_resume <$> rs ∧
    Forall (λ c, dom (resume c) = list_to_set resume_keys) out ∧
    ∀ r : Resume,
      (∀ k, k ∈ resume_keys → normalize_resume r !! k = Some (default [] (r !! k))) ∧
      (∀ k, k ∉ resume_keys → normalize_resume r !! k = None) ∧
      normalize_resume r !! "email"%string = None.
Proof.
  intros Hj.
  destruct (ranking_structure current_year rs job_data Hj) as (cands & Hc & Hout & Hu & _).
  set (out := assign_ranks (sort_desc cands)) in *.
  exists out. split; [done|].
  assert (Hres : resume <$> out ≡ₚ normalize_resume <$> rs).
  { rewrite <- (scored_resumes current_year job_data rs cands Hc).
    rewrite <- (resume_unrank out), Hu. by rewrite sort_desc_perm. }
  split; [done|]. split.
  - apply Forall_forall. intros c Hc'.
    assert (Hin : resume c ∈ normalize_resume <$> rs).
    { rewrite <- Hres. apply list_elem_of_fmap. eauto. }
    apply list_elem_of_fmap in Hin as (r & -> & _). apply normalize_resume_dom.
  - intros r. split; [|split].
    + intros k Hk. by rewrite normalize_resume_lookup, bool_decide_eq_true_2.
    + intros k Hk. by rewrite normalize_resume_lookup, bool_decide_eq_false_2.
    + by rewrite normalize_resume_lookup.
Qed.

(** The fields of a resume that carries an email. *)
Lemma C10_resume_fields_witness :
  ∃ out,
    rank_candidates 2024 [contact_resume] python_job = Some out ∧
    resume <$> out ≡ₚ normalize_resume <$> [contact_resume] ∧
    Forall (λ c, dom (resume c) = list_to_set resume_keys) out ∧
    ∀ r : Resume,
      (∀ k, k ∈ resume_keys → normalize_resume r !! k = Some (default [] (r !! k))) ∧
      (∀ k, k ∉ resume_keys → normalize_resume r !! k = None) ∧
      normalize_resume r !! "email"%string = None.
Proof.
  apply (C10_resume_fields 2024 [contact_resume] python_job).
  repeat split; by eexists.
Defined.

(** * The composite score *)

Lemma total_score_bounds (current_year : Z) (r : Resume) (job_data : JobData) (t : Q) :
  total_score current_year r job_data = Some t → 0 <= t ∧ t <= 120.
Proof.
  unfold total_score. intros H.
  destruct (compute_ats_score r job_data) as [a|] eqn:Ea; [|done].
  simpl in H. injection H as <-.
  pose proof (compute_ats_score_bounds _ _ _ Ea).
  pose proof (skill_score_bounds (field r "skills") (default [] (required_skills job_data))).
  pose proof (experience_score_bounds current_year (field r "experience")
                (default 0 (required_experience job_data))).
  pose proof (education_score_bounds (field r "education")
                (default [] (required_education job_data))).
  pose proof (certification_score_bounds (field r "certifications")
                (default [] (required_certifications job_data))).
  lra.
Qed.

Lemma scored_from_loop (current_year : Z) (job_data : JobData) (rs : list Resume)
    (cands : list Candidate) :
  mapM (score_resume current_year job_data) rs = Some cands →
  Forall (scored_from current_year job_data) cands.
Proof.
  intros H. apply scoring_loop_spec in H.
  induction H as [|r c rs cands Hc _ IH]; constructor; [|done].
  apply score_resume_spec in Hc as (t & a & Ht & Ha & Hs & Has & Hr & _).
  exists t, a. rewrite Hr. done.
Qed.

Lemma scored_from_ranked (current_year : Z) (job_data : JobData) (cands : list Candidate) :
  Forall (scored_from current_year job_data) cands →
  Forall (scored_from current_year job_data) (assign_ranks (sort_desc cands)).
Proof. apply ranked_Forall. intros z c H. exact H. Qed.

Example strong_resume_scores :
  compute_skill_similarity ["python"]%string ["python"]%string == 50 ∧
  compute_experience_score 2024 ["5 years"]%string 0 == 30 ∧
  compute_education_similarity ["phd"]%string ["bachelor"]%string == 15 ∧
  compute_certification_similarity ["certified aws"]%string ["aws"]%string == 5 ∧
  (∃ a, compute_ats_score (normalize_resume strong_resume) strong_job = Some a ∧
        a == 1112 # 75) ∧
  round1 (50 + 30 + 15 + 5 + (1112 # 75)) == 1148 # 10.
Proof.
  repeat split; try by vm_compute.
  eexists. split; [vm_compute; reflexivity | by vm_compute].
Qed.

(** C1, as stated, fails: a resume that meets every requirement scores
    50 + 30 + 15 + 5 and an ATS part of about 14.8, that is 114.8. *)
Lemma C1_counterexample :
  ¬ (∀ current_year rs job_data out,
       rank_candidates current_year rs job_data = Some out →
       Forall (λ c, 0 <= score c ∧ score c <= 100) out).
Proof.
  intros H.
  assert (E : ∃ out, rank_candidates 2024 [strong_resume] strong_job = Some out ∧
                     Forall (λ c, score c == 1148 # 10) out).
  { eexists. split; [vm_compute; reflexivity|]. repeat constructor. }
  destruct E as (out & Hout & Hs).
  specialize (H _ _ _ _ Hout).
  destruct out as [|c out]; [by vm_compute in Hout|].
  apply Forall_cons_1 in H as [[_ H] _]. apply Forall_cons_1 in Hs as [Hs _].
  rewrite Hs in H. revert H. by vm_compute.
Qed.

(** The upper end is reached: every sub-score at its cap. *)
Example composite_score_reaches_120 :
  ∃ c, rank_candidates 2024 [best_resume] best_job = Some [c] ∧ score c == 120.
Proof. eexists. split; [vm_compute; reflexivity | by vm_compute]. Qed.

(** C1, amended. With the requirement lists present, every candidate
    returned by [rank_candidates] has a composite score (the sum of the
    five sub-scores, rounded to one decimal) in the closed interval
    [0, 120], the sum of the five caps. *)
Theorem C1_composite_score_bounds (current_year : Z) (rs : list Resume)
    (job_data : JobData) :
  job_complete job_data →
  ∃ out,
    rank_candidates current_year rs job_data = Some out ∧
    Forall (λ c, 0 <= score c ∧ score c <= 120) out.
Proof.
  intros Hj.
  destruct (ranking_structure current_year rs job_data Hj) as (cands & Hc & Hout & _).
  eexists. split; [exact Hout|].
  eapply Forall_impl.
  - apply scored_from_ranked, (scored_from_loop _ _ _ _ Hc).
  - intros c (t & a & Ht & _ & -> & _).
    apply total_score_bounds in Ht as [? ?].
    apply (round1_between 0 120); done.
Qed.

(** The bound at the resume that meets every requirement. *)
Lemma C1_composite_score_bounds_witness :
  ∃ out,
    rank_candidates 2024 [strong_resume] strong_job = Some out ∧
    Forall (λ c, 0 <= score c ∧ score c <= 120) out.
Proof.
  apply (C1_composite_score_bounds 2024 [strong_resume] strong_job).
  repeat split; by eexists.
Defined.

(** * Rounding and ties *)

Example near_sums_round_apart :
  (∃ t, total_score 2024 (normalize_resume short_resume) empty_job = Some t ∧
        t == 2045 # 1000) ∧
  (∃ t, total_score 2024 (normalize_resume longer_resume) empty_job = Some t ∧
        t == 2055 # 1000) ∧
  round1 (2045 # 1000) == 2 ∧ round1 (2055 # 1000) == 21 # 10.
Proof.
  split; [eexists; split; [vm_compute; reflexivity | by vm_compute]|].
  split; [eexists; split; [vm_compute; reflexivity | by vm_compute]|].
  split; by vm_compute.
Qed.




